(** * DatabaseManager: a shallow embedding of
      [src/magentic_ui/backend/database/db_manager.py]

    The file follows the source top to bottom:

    - the connection provisioner ([DatabaseManager.__init__] and the
      [set_sqlite_pragma] listener), a pure function of the engine URI;
    - the effects of the manager's methods, as a small program monad whose
      operations are the calls the source makes on the lock, the engine, the
      session, the schema manager and the team loader;
    - the backend those calls talk to (tables, unit of work, scheduled driver
      faults), as a handler on an explicit world state;
    - the methods themselves: [initialize_database], [reset_db], [upsert],
      [get], [delete], [import_team], [import_teams_from_directory],
      [_check_team_exists] and [close];
    - two callers interleaved on one manager, one operation at a time;
    - the vocabulary of the properties and the sample worlds they are tried
      on;
    - the properties. *)

From Stdlib Require Import ZArith String Ascii List Bool Lia.
From stdpp Require Import base option list gmap strings fin_maps sorting.

Local Open Scope string_scope.
Local Open Scope list_scope.
Local Open Scope Z_scope.

(** ** 1. Connection provisioner *)

(** Python's [needle in haystack] on [str]: a case-sensitive search for a
    contiguous occurrence. *)
Fixpoint startswith (needle s : string) : bool :=
  match needle, s with
  | EmptyString, _ => true
  | String a needle', String b s' => Ascii.eqb a b && startswith needle' s'
  | String _ _, EmptyString => false
  end.

Fixpoint str_in (needle s : string) : bool :=
  startswith needle s ||
  match s with
  | EmptyString => false
  | String _ s' => str_in needle s'
  end.

(** The values found in the keyword dictionaries handed to [create_engine]. *)
Inductive Setting :=
| SBool (b : bool)
| SInt (n : Z)
| SNone
| SClass (name : string).

#[global] Instance Setting_eq_dec : EqDecision Setting.
Proof. solve_decision. Defined.

(** [d.update(other)]: the keys of [other] win. *)
Definition dict_update {V} (d other : gmap string V) : gmap string V := other ∪ d.

(** What [__init__] hands to [create_engine], and the statements the
    ["connect"] listener runs on every new physical connection (none when no
    listener is registered). *)
Record Engine := {
  engine_url : string;
  connect_args : gmap string Setting;
  pool_kwargs : gmap string Setting;
  echo : bool;
  on_connect : list string
}.

(** The body of [set_sqlite_pragma], in execution order. *)
Definition set_sqlite_pragma : list string :=
  [ "PRAGMA foreign_keys=ON";
    "PRAGMA journal_mode=WAL";
    "PRAGMA synchronous=NORMAL";
    "PRAGMA cache_size=100000";
    "PRAGMA temp_store=MEMORY";
    "PRAGMA mmap_size=268435456";
    "PRAGMA page_size=8192";
    "PRAGMA wal_autocheckpoint=1000";
    "PRAGMA busy_timeout=15000";
    "PRAGMA read_uncommitted=ON";
    "PRAGMA wal_checkpoint=TRUNCATE";
    "PRAGMA optimize" ].

(** [DatabaseManager.__init__], up to the construction of the engine and the
    registration of the listener. *)
Definition init_engine (engine_uri : string) : Engine :=
  let connection_args : gmap string Setting :=
    if str_in "sqlite" engine_uri
    then {[ "check_same_thread" := SBool false ]}
    else ∅ in
  let '(connection_args, pool) :=
    if str_in "sqlite" engine_uri then
      (dict_update connection_args
         (<[ "timeout" := SInt 15 ]> {[ "isolation_level" := SNone ]}),
       <[ "poolclass" := SClass "StaticPool" ]>
         (<[ "pool_pre_ping" := SBool true ]>
            {[ "pool_recycle" := SInt 3600 ]}))
    else
      (connection_args,
       <[ "pool_size" := SInt 20 ]>
         (<[ "max_overflow" := SInt 0 ]>
            (<[ "pool_pre_ping" := SBool true ]>
               (<[ "pool_recycle" := SInt 3600 ]>
                  {[ "pool_timeout" := SInt 15 ]})))) in
  {| engine_url := engine_uri;
     connect_args := connection_args;
     pool_kwargs := pool;
     echo := false;
     on_connect := if str_in "sqlite" engine_uri then set_sqlite_pragma else [] |}.

(** What it means for [needle] to occur somewhere in [s]. *)
Definition occurs_in (needle s : string) : Prop :=
  ∃ pre post : string, s = (pre ++ needle ++ post)%string.

(** The two tunings, as the specification words them. *)
Definition embedded_tuning (e : Engine) : Prop :=
  pool_kwargs e !! "poolclass" = Some (SClass "StaticPool") ∧
  connect_args e !! "check_same_thread" = Some (SBool false) ∧
  connect_args e !! "isolation_level" = Some SNone ∧
  connect_args e !! "timeout" = Some (SInt 15) ∧
  "PRAGMA foreign_keys=ON" ∈ on_connect e ∧
  "PRAGMA journal_mode=WAL" ∈ on_connect e ∧
  "PRAGMA synchronous=NORMAL" ∈ on_connect e ∧
  "PRAGMA cache_size=100000" ∈ on_connect e ∧
  "PRAGMA page_size=8192" ∈ on_connect e ∧
  "PRAGMA busy_timeout=15000" ∈ on_connect e.

Definition bounded_pool_tuning (e : Engine) : Prop :=
  pool_kwargs e !! "poolclass" = None ∧
  pool_kwargs e !! "pool_size" = Some (SInt 20) ∧
  pool_kwargs e !! "max_overflow" = Some (SInt 0) ∧
  pool_kwargs e !! "pool_pre_ping" = Some (SBool true) ∧
  pool_kwargs e !! "pool_recycle" = Some (SInt 3600) ∧
  connect_args e = ∅ ∧
  on_connect e = [].


(** ** 2. Data model *)

(** The team configuration payload ([Dict[str, Any]]) is kept abstract.  The
    source hands it to a JSON column, gets it back from there and compares
    what it got back with a caller's object by [==].  [stored c] is what the
    column hands back for [c], its value after a round trip through the
    serialised form: a tuple comes back as a list, an integer key as a
    string, a NaN as another NaN.  [py_eq] is [==] on two payloads; nothing
    is assumed of it. *)
Class Payload (Config : Type) := {
  stored : Config → Config;
  py_eq : Config → Config → bool
}.

Section Model.

Context {Config : Type} `{EqDecision Config} `{Payload Config}.

(** Attribute values of a model instance. [VTime t] is a [datetime] and
    [VIso t] the string it becomes in a JSON-mode dump. [VTyped c] is an
    object that has a [model_dump] of its own (a nested pydantic model);
    [VJson c] is the plain structured value it serialises to. *)
Inductive Value :=
| VNone
| VBool (b : bool)
| VInt (n : Z)
| VStr (s : string)
| VTime (t : Z)
| VIso (t : Z)
| VJson (c : Config)
| VTyped (c : Config).

#[global] Instance Value_eq_dec : EqDecision Value.
Proof. solve_decision. Defined.

(** A model class: its [__name__] and the attributes it declares. *)
Record ModelClass := {
  class_name : string;
  class_attrs : list string
}.

#[global] Instance ModelClass_eq_dec : EqDecision ModelClass.
Proof. solve_decision. Defined.

(** A model instance: its class and its attribute dictionary. *)
Record Entity := {
  cls : ModelClass;
  fields : gmap string Value
}.

#[global] Instance Entity_eq_dec : EqDecision Entity.
Proof. solve_decision. Defined.

(** Exceptions. The source tells [sqlalchemy.exc.IntegrityError] from every
    other [Exception]; the lock raises [RuntimeError] when released while
    unlocked. *)
Inductive Exn :=
| IntegrityError (msg : string)
| AttributeError (msg : string)
| ValueError (msg : string)
| RuntimeError (msg : string)
| Error (msg : string).

#[global] Instance Exn_eq_dec : EqDecision Exn.
Proof. solve_decision. Defined.

(** [str(e)] *)
Definition exn_str (e : Exn) : string :=
  match e with
  | IntegrityError m | AttributeError m | ValueError m
  | RuntimeError m | Error m => m
  end.

(** What a [Response] carries in [data]. *)
Inductive Item :=
| IModel (m : Entity)
| IDict (d : gmap string Value).

Inductive Data :=
| DNone
| DItem (item : Item)
| DList (items : list Item).

(** [Response(message=..., status=..., data=...)]; [data] defaults to
    [None]. *)
Record Response := {
  message : string;
  status : bool;
  data : Data
}.

(** Python truthiness of a payload ([if not result.data]). *)
Definition truthy (d : Data) : bool :=
  match d with
  | DNone => false
  | DItem (IDict d) => negb (bool_decide (d = ∅))
  | DItem (IModel _) => true
  | DList items => negb (bool_decide (items = []))
  end.

(** [getattr(m, key)] and [hasattr(m, key)] on an instance. *)
Definition getattr (m : Entity) (key : string) : Exn + Value :=
  match fields m !! key with
  | Some v => inr v
  | None => inl (AttributeError key)
  end.

Definition hasattr (m : Entity) (key : string) : bool :=
  bool_decide (is_Some (fields m !! key)).

(** [setattr(m, key, value)] *)
Definition setattr (m : Entity) (key : string) (v : Value) : Entity :=
  {| cls := cls m; fields := <[key := v]> (fields m) |}.

(** [value.model_dump()] where the value has one, the value itself
    otherwise; and [m.model_dump()], which serialises every field. *)
Definition dump_value (v : Value) : Value :=
  match v with
  | VTyped c => VJson c
  | _ => v
  end.

Definition has_model_dump (v : Value) : bool :=
  match v with
  | VTyped _ => true
  | _ => false
  end.

Definition model_dump (m : Entity) : gmap string Value :=
  dump_value <$> fields m.

(** [m.model_dump(mode="json")] *)
Definition json_value (v : Value) : Value :=
  match v with
  | VTyped c => VJson c
  | VTime t => VIso t
  | _ => v
  end.

Definition model_dump_json (m : Entity) : gmap string Value :=
  json_value <$> fields m.

(** [for key, value in items: setattr(target, key, value)] *)
Definition setattr_all (target : Entity) (items : gmap string Value) : Entity :=
  map_fold (λ key value acc, setattr acc key value) target items.

(** A [select(model_class)] statement with its equality conditions and its
    ordering on [created_at] ([Some true] is descending). *)
Record Query := {
  q_class : ModelClass;
  q_where : list (string * Value);
  q_order : option bool
}.

(** ** 3. Programs *)

(** The calls on the driver, the schema manager and the session that can
    fail for reasons of their own. *)
Inductive Call :=
| CDispose | CInspect | CCreateAll | CDropAll
| CInitializeMigrations | CCheckSchemaStatus | CEnsureSchemaUpToDate
| CExecute | CExec | CCommit | CRefresh.

#[global] Instance Call_eq_dec : EqDecision Call.
Proof. solve_decision. Defined.

(** The operations a method performs on the world around it, indexed by what
    they answer.  An operation that can raise answers [Exn + _]. *)
Inductive Op : Type → Type :=
(* DatabaseManager._init_lock *)
| LockAcquire : Op bool                      (* acquire(blocking=False) *)
| LockRelease : Op (Exn + unit)              (* release() *)
| LockLocked : Op bool                       (* locked() *)
(* engine, inspector, metadata *)
| EngineUrl : Op string                      (* str(self.engine.url) *)
| EngineDispose : Op (Exn + unit)
| GetTableNames : Op (Exn + list string)   (* inspect(engine).get_table_names() *)
| CreateAll : Op (Exn + unit)
| DropAll : Op (Exn + unit)
(* schema manager *)
| InitializeMigrations (force : bool) : Op (Exn + bool)
| CheckSchemaStatus : Op (Exn + bool)
| EnsureSchemaUpToDate : Op (Exn + bool)
(* session *)
| SessionOpen : Op unit
| SessionExecute (sql : string) : Op (Exn + unit)
| SessionExec (q : Query) : Op (Exn + list Entity)
| SessionAdd (m : Entity) : Op unit
| SessionDelete (m : Entity) : Op unit
| SessionCommit : Op (Exn + unit)
| SessionRefresh (m : Entity) : Op (Exn + Entity)
| SessionRollback : Op unit
| SessionClose : Op unit
(* clock, logger, team loader *)
| Now : Op Z
| Log (level msg : string) : Op unit
| LoadFromFile (path : string) : Op (Exn + Config)
| LoadFromDirectory (directory : string) : Op (Exn + list Config).

(** A method body: it returns, raises, or performs an operation and goes on
    with the answer. *)
Inductive Prog (A : Type) : Type :=
| Ret (a : A)
| Throw (e : Exn)
| Vis {X : Type} (op : Op X) (k : X → Prog A).

Arguments Ret {A} a.
Arguments Throw {A} e.
Arguments Vis {A X} op k.

Fixpoint bind {A B} (p : Prog A) (f : A → Prog B) : Prog B :=
  match p with
  | Ret a => f a
  | Throw e => Throw e
  | Vis op k => Vis op (λ x, bind (k x) f)
  end.

(** [try: p except Exception as e: h e] *)
Fixpoint try_except {A} (p : Prog A) (h : Exn → Prog A) : Prog A :=
  match p with
  | Ret a => Ret a
  | Throw e => h e
  | Vis op k => Vis op (λ x, try_except (k x) h)
  end.

(** [try: p finally: fin].  The clean-up runs on return and on raise; an
    exception of the clean-up replaces the outcome of [p]. *)
Fixpoint try_finally {A} (p : Prog A) (fin : Prog unit) : Prog A :=
  match p with
  | Ret a => bind fin (λ _, Ret a)
  | Throw e => bind fin (λ _, Throw e)
  | Vis op k => Vis op (λ x, try_finally (k x) fin)
  end.

(** An operation that cannot raise, and one that can. *)
Definition perform {X} (op : Op X) : Prog X := Vis op Ret.

Definition call {X} (op : Op (Exn + X)) : Prog X :=
  Vis op (λ r, match r with inl e => Throw e | inr x => Ret x end).

(** A value computed without effects that may be an exception
    ([getattr] on a missing attribute). *)
Definition lift {X} (r : Exn + X) : Prog X :=
  match r with inl e => Throw e | inr x => Ret x end.


(** ** 4. The world the operations act on *)

(** What a session has queued up for the next flush. *)
Inductive Change :=
| Insert (m : Entity)
| Update (m : Entity)
| Delete (m : Entity).

(** A [Session]: the identity map ((class, primary key) of every instance it
    has loaded or flushed), the unit of work, and the primary keys the last
    flush gave to instances that were added without one. *)
Record Session := {
  identity : list (string * Value);
  pending : list Change;
  assigned : list (Entity * Value)
}.

Definition new_session : Session :=
  {| identity := []; pending := []; assigned := [] |}.

(** The schema manager is a collaborator outside these sources; the manager
    only consumes the answers of three of its methods. *)
Record SchemaManager := {
  initialize_migrations : bool → bool;
  check_schema_status : bool;
  ensure_schema_up_to_date : bool
}.

(** The team loader, likewise: what [TeamManager.load_from_file] and
    [TeamManager.load_from_directory] answer for a path. *)
Record TeamManager := {
  load_from_file : string → Exn + Config;
  load_from_directory : string → Exn + list Config
}.

Record World := {
  init_lock : bool;                          (* DatabaseManager._init_lock is held *)
  engine : Engine;                           (* self.engine *)
  metadata : list string;                    (* tables declared in SQLModel.metadata *)
  tables : gmap string (list (gmap string Value));   (* existing tables and their rows *)
  referenced : list (string * Value);        (* rows a dependent row points to *)
  session : Session;                         (* the session of the running method *)
  schema_manager : SchemaManager;            (* self.schema_manager *)
  team_manager : TeamManager;
  clock : Z;                                 (* datetime.now() *)
  faults : Call → list (option Exn);         (* what each coming call will meet *)
  executed : list string;                    (* statements sent through the connection *)
  log : list (string * string)               (* loguru records *)
}.

Definition set_init_lock (b : bool) (w : World) : World :=
  {| init_lock := b; engine := engine w; metadata := metadata w;
     tables := tables w; referenced := referenced w; session := session w;
     schema_manager := schema_manager w; team_manager := team_manager w;
     clock := clock w; faults := faults w; executed := executed w; log := log w |}.

Definition set_store (t : gmap string (list (gmap string Value)))
    (r : list (string * Value)) (w : World) : World :=
  {| init_lock := init_lock w; engine := engine w; metadata := metadata w;
     tables := t; referenced := r; session := session w;
     schema_manager := schema_manager w; team_manager := team_manager w;
     clock := clock w; faults := faults w; executed := executed w; log := log w |}.

Definition set_session (s : Session) (w : World) : World :=
  {| init_lock := init_lock w; engine := engine w; metadata := metadata w;
     tables := tables w; referenced := referenced w; session := s;
     schema_manager := schema_manager w; team_manager := team_manager w;
     clock := clock w; faults := faults w; executed := executed w; log := log w |}.

Definition set_faults (f : Call → list (option Exn)) (w : World) : World :=
  {| init_lock := init_lock w; engine := engine w; metadata := metadata w;
     tables := tables w; referenced := referenced w; session := session w;
     schema_manager := schema_manager w; team_manager := team_manager w;
     clock := clock w; faults := f; executed := executed w; log := log w |}.

Definition add_executed (sql : string) (w : World) : World :=
  {| init_lock := init_lock w; engine := engine w; metadata := metadata w;
     tables := tables w; referenced := referenced w; session := session w;
     schema_manager := schema_manager w; team_manager := team_manager w;
     clock := clock w; faults := faults w; executed := executed w ++ [sql];
     log := log w |}.

Definition add_log (level msg : string) (w : World) : World :=
  {| init_lock := init_lock w; engine := engine w; metadata := metadata w;
     tables := tables w; referenced := referenced w; session := session w;
     schema_manager := schema_manager w; team_manager := team_manager w;
     clock := clock w; faults := faults w; executed := executed w;
     log := log w ++ [(level, msg)] |}.

(** The next call [c] consumes the head of its schedule; an empty schedule
    means the call goes through. *)
Definition next_fault (c : Call) (w : World) : option Exn :=
  match faults w c with
  | f :: _ => f
  | [] => None
  end.

Definition consume_fault (c : Call) (w : World) : World :=
  match faults w c with
  | _ :: rest =>
      set_faults (λ c', if decide (c' = c) then rest else faults w c') w
  | [] => w
  end.

(** A call that changes nothing unless it goes through. *)
Definition guarded {X} (c : Call) (w : World) (ok : World → (Exn + X) * World)
    : (Exn + X) * World :=
  match next_fault c w with
  | Some e => (inl e, consume_fault c w)
  | None => ok (consume_fault c w)
  end.

(** *** Rows *)

Definition row_id (row : gmap string Value) : Value :=
  default VNone (row !! "id").

(** What a column holds once a value is written to it: a payload goes
    through the JSON column. *)
Definition stored_value (v : Value) : Value :=
  match v with
  | VJson c => VJson (stored c)
  | _ => v
  end.

(** An [UPDATE] sends the attributes whose value is not the one the row
    holds; the other columns stay as they are. *)
Definition written (before : option Value) (v : Value) : Value :=
  if bool_decide (before = Some v) then v else stored_value v.

Definition updated_row (row new : gmap string Value) : gmap string Value :=
  map_imap (λ key v, Some (written (row !! key) v)) new.

Definition created_key (row : gmap string Value) : Z :=
  match row !! "created_at" with
  | Some (VTime t) => t
  | _ => 0
  end.

(** [WHERE col1 = v1 AND col2 = v2 ...] *)
Definition matches (conds : list (string * Value)) (row : gmap string Value) : bool :=
  forallb (λ '(col, v), bool_decide (row !! col = Some v)) conds.

(** [ORDER BY created_at], stable: rows with the same timestamp stay in the
    order of the table. *)
Fixpoint insert_sorted (desc : bool) (row : gmap string Value)
    (rows : list (gmap string Value)) : list (gmap string Value) :=
  match rows with
  | [] => [row]
  | r :: rest =>
      if (if desc then created_key r <=? created_key row
          else created_key row <=? created_key r)
      then row :: r :: rest
      else r :: insert_sorted desc row rest
  end.

Definition order_by (desc : bool) (rows : list (gmap string Value))
    : list (gmap string Value) :=
  foldr (insert_sorted desc) [] rows.

Definition run_query (q : Query) (rows : list (gmap string Value))
    : list (gmap string Value) :=
  let found := filter (λ row, matches (q_where q) row = true) rows in
  match q_order q with
  | Some desc => order_by desc found
  | None => found
  end.

(** The key an [INTEGER PRIMARY KEY] column gets when none is given. *)
Definition next_rowid (rows : list (gmap string Value)) : Z :=
  1 + foldr (λ row acc, match row_id row with VInt n => Z.max n acc | _ => acc end)
        0 rows.

(** *** Flushing the unit of work *)

Definition Store : Type :=
  gmap string (list (gmap string Value)) * list (Entity * Value).

Definition flush_one (refs : list (string * Value)) (c : Change) (st : Store)
    : Exn + Store :=
  let '(tbls, given) := st in
  let table_of m := tbls !! class_name (cls m) in
  match c with
  | Insert m =>
      match table_of m with
      | None => inl (Error ("no such table: " +:+ class_name (cls m)))
      | Some rows =>
          match row_id (fields m) with
          | VNone =>
              let pk := VInt (next_rowid rows) in
              inr (<[class_name (cls m) :=
                       rows ++ [stored_value <$> <["id" := pk]> (fields m)]]> tbls,
                   given ++ [(m, pk)])
          | pk =>
              if bool_decide (pk ∈ row_id <$> rows)
              then inl (IntegrityError ("UNIQUE constraint failed: "
                                        +:+ class_name (cls m) +:+ ".id"))
              else inr (<[class_name (cls m) :=
                            rows ++ [stored_value <$> fields m]]> tbls, given)
          end
      end
  | Update m =>
      match table_of m with
      | None => inl (Error ("no such table: " +:+ class_name (cls m)))
      | Some rows =>
          inr (<[class_name (cls m) :=
                   (λ row, if bool_decide (row_id row = row_id (fields m))
                           then updated_row row (fields m) else row) <$> rows]> tbls,
               given)
      end
  | Delete m =>
      match table_of m with
      | None => inl (Error ("no such table: " +:+ class_name (cls m)))
      | Some rows =>
          if bool_decide ((class_name (cls m), row_id (fields m)) ∈ refs)
          then inl (IntegrityError "FOREIGN KEY constraint failed")
          else inr (<[class_name (cls m) :=
                        filter (λ row, row_id row ≠ row_id (fields m)) rows]> tbls,
                    given)
      end
  end.

Fixpoint flush (refs : list (string * Value)) (cs : list Change) (st : Store)
    : Exn + Store :=
  match cs with
  | [] => inr st
  | c :: rest =>
      match flush_one refs c st with
      | inl e => inl e
      | inr st' => flush refs rest st'
      end
  end.

Definition change_key (c : Change) : string * Value :=
  match c with
  | Insert m | Update m | Delete m => (class_name (cls m), row_id (fields m))
  end.

(** The primary key of [m] as the session knows it. *)
Definition primary_key (s : Session) (m : Entity) : Value :=
  match row_id (fields m) with
  | VNone =>
      default VNone (snd <$> find (λ given, bool_decide (given.1 = m)) (assigned s))
  | pk => pk
  end.

(** *** The handler: what each operation does to the world *)

Definition handle {X} (op : Op X) (w : World) : X * World :=
  match op in Op X return X * World with
  | LockAcquire =>
      if init_lock w then (false, w) else (true, set_init_lock true w)
  | LockRelease =>
      if init_lock w then (inr tt, set_init_lock false w)
      else (inl (RuntimeError "release unlocked lock"), w)
  | LockLocked => (init_lock w, w)
  | EngineUrl => (engine_url (engine w), w)
  | EngineDispose => guarded CDispose w (λ w, (inr tt, w))
  | GetTableNames =>
      guarded CInspect w (λ w, (inr (fst <$> map_to_list (tables w)), w))
  | CreateAll =>
      guarded CCreateAll w (λ w,
        (inr tt,
         set_store
           (foldr (λ name t, match t !! name with
                              | Some _ => t
                              | None => <[name := []]> t
                              end)
              (tables w) (metadata w))
           (referenced w) w))
  | DropAll =>
      guarded CDropAll w (λ w,
        (inr tt,
         set_store
           (foldr delete (tables w) (metadata w))
           (filter (λ ref, ref.1 ∉ metadata w) (referenced w)) w))
  | InitializeMigrations force =>
      guarded CInitializeMigrations w (λ w,
        (inr (initialize_migrations (schema_manager w) force), w))
  | CheckSchemaStatus =>
      guarded CCheckSchemaStatus w (λ w,
        (inr (check_schema_status (schema_manager w)), w))
  | EnsureSchemaUpToDate =>
      guarded CEnsureSchemaUpToDate w (λ w,
        (inr (ensure_schema_up_to_date (schema_manager w)), w))
  | SessionOpen => (tt, set_session new_session w)
  | SessionExecute sql => guarded CExecute w (λ w, (inr tt, add_executed sql w))
  | SessionExec q =>
      guarded CExec w (λ w,
        match tables w !! class_name (q_class q) with
        | None => (inl (Error ("no such table: " +:+ class_name (q_class q))), w)
        | Some rows =>
            let found := run_query q rows in
            (inr (Build_Entity (q_class q) <$> found),
             set_session
               {| identity := identity (session w)
                              ++ ((λ row, (class_name (q_class q), row_id row)) <$> found);
                  pending := pending (session w);
                  assigned := assigned (session w) |} w)
        end)
  | SessionAdd m =>
      let s := session w in
      (tt,
       set_session
         {| identity := identity s;
            pending := pending s ++
              [if bool_decide ((class_name (cls m), row_id (fields m)) ∈ identity s)
               then Update m else Insert m];
            assigned := assigned s |} w)
  | SessionDelete m =>
      let s := session w in
      (tt,
       set_session
         {| identity := identity s;
            pending := pending s ++ [Delete m];
            assigned := assigned s |} w)
  | SessionCommit =>
      guarded CCommit w (λ w,
        let s := session w in
        match flush (referenced w) (pending s) (tables w, assigned s) with
        | inl e => (inl e, w)
        | inr (tbls, given) =>
            (inr tt,
             set_session
               {| identity := identity s ++ (change_key <$> pending s)
                              ++ ((λ g, (class_name (cls g.1), g.2)) <$> given);
                  pending := [];
                  assigned := given |}
               (set_store tbls (referenced w) w))
        end)
  | SessionRefresh m =>
      guarded CRefresh w (λ w,
        let pk := primary_key (session w) m in
        match pk, tables w !! class_name (cls m)
                    ≫= find (λ row, bool_decide (row_id row = pk)) with
        | VNone, _ | _, None =>
            (inl (Error "Could not refresh instance"), w)
        | _, Some row => (inr (Build_Entity (cls m) row), w)
        end)
  | SessionRollback =>
      let s := session w in
      (tt,
       set_session
         {| identity := identity s; pending := []; assigned := assigned s |} w)
  | SessionClose => (tt, set_session new_session w)
  | Now => (clock w, w)
  | Log level msg => (tt, add_log level msg w)
  | LoadFromFile path => (load_from_file (team_manager w) path, w)
  | LoadFromDirectory directory => (load_from_directory (team_manager w) directory, w)
  end.

(** Running a method from a world: its outcome and the world it leaves. *)
Fixpoint run {A} (p : Prog A) (w : World) : (Exn + A) * World :=
  match p with
  | Ret a => (inr a, w)
  | Throw e => (inl e, w)
  | Vis op k => let '(x, w') := handle op w in run (k x) w'
  end.

Declare Scope prog_scope.
Delimit Scope prog_scope with prog.
Bind Scope prog_scope with Prog.

Notation "x <- p ;; q" := (bind p (λ x, q))
  (at level 100, p at next level, q at level 200, right associativity) : prog_scope.
Notation "p ;; q" := (bind p (λ _, q))
  (at level 100, q at level 200, right associativity) : prog_scope.
Notation "' pat <- p ;; q" := (bind p (λ x, match x with pat => q end))
  (at level 20, pat pattern, p at level 99, q at level 200) : prog_scope.

Local Open Scope prog_scope.

(** [with Session(self.engine) as session: body] *)
Definition with_session {A} (body : Prog A) : Prog A :=
  perform SessionOpen ;; try_finally body (perform SessionClose).

(** ** 5. Lifecycle coordinator *)

Definition _should_auto_upgrade : Prog bool :=
  needs_upgrade <- call CheckSchemaStatus ;;
  Ret needs_upgrade.

Definition initialize_database (auto_upgrade force_init_alembic : bool)
    : Prog Response :=
  acquired <- perform LockAcquire ;;
  if negb acquired then
    Ret {| message := "Database initialization already in progress";
           status := false; data := DNone |}
  else
    try_finally
      (try_except
         (tables_exist <- call GetTableNames ;;
          if bool_decide (tables_exist = []) then
            perform (Log "INFO" "Creating database tables...") ;;
            call CreateAll ;;
            initialized <- call (InitializeMigrations force_init_alembic) ;;
            if initialized then
              Ret {| message := "Database initialized successfully";
                     status := true; data := DNone |}
            else
              Ret {| message := "Failed to initialize migrations";
                     status := false; data := DNone |}
          else
            upgrade <- (if auto_upgrade then Ret true else _should_auto_upgrade) ;;
            if upgrade then
              perform (Log "INFO" "Checking database schema...") ;;
              up_to_date <- call EnsureSchemaUpToDate ;;
              if up_to_date then
                Ret {| message := "Database schema is up to date";
                       status := true; data := DNone |}
              else
                Ret {| message := "Database upgrade failed";
                       status := false; data := DNone |}
            else
              Ret {| message := "Database is ready"; status := true; data := DNone |})
         (λ e,
            let error_msg := "Database initialization failed: " +:+ exn_str e in
            perform (Log "ERROR" error_msg) ;;
            Ret {| message := error_msg; status := false; data := DNone |}))
      (call LockRelease).

(** The [with Session(self.engine) as session:] block of [reset_db]: the
    drop of all tables in one transaction, with the clean-up that closes the
    session and releases the gate. *)
Definition drop_all_tables : Prog unit :=
  with_session
    (try_finally
       (try_except
          (url <- perform EngineUrl ;;
           (if str_in "sqlite" url
            then call (SessionExecute "PRAGMA foreign_keys=OFF")
            else Ret tt) ;;
           call DropAll ;;
           perform (Log "INFO" "All tables dropped successfully") ;;
           url <- perform EngineUrl ;;
           (if str_in "sqlite" url
            then call (SessionExecute "PRAGMA foreign_keys=ON")
            else Ret tt) ;;
           call SessionCommit)
          (λ e, perform SessionRollback ;; Throw e))
       (perform SessionClose ;; call LockRelease)).

Definition reset_db (recreate_tables : bool) : Prog Response :=
  acquired <- perform LockAcquire ;;
  if negb acquired then
    perform (Log "WARNING" "Database reset already in progress") ;;
    Ret {| message := "Database reset already in progress";
           status := false; data := DNone |}
  else
    try_finally
      (try_except
         (call EngineDispose ;;
          drop_all_tables ;;
          (if recreate_tables then
             perform (Log "INFO" "Recreating tables...") ;;
             initialize_database false true ;;
             Ret tt
           else Ret tt) ;;
          Ret {| message := if recreate_tables
                            then "Database reset successfully"
                            else "Database tables dropped successfully";
                 status := true; data := DNone |})
         (λ e,
            let error_msg := "Error while resetting database: " +:+ exn_str e in
            perform (Log "ERROR" error_msg) ;;
            Ret {| message := error_msg; status := false; data := DNone |}))
      (locked <- perform LockLocked ;;
       if locked then
         call LockRelease ;;
         perform (Log "INFO" "Database reset lock released")
       else Ret tt).

(** ** 6. Transactional façade *)

(** The statements of a [try:] suite, run in order.  Each one maps the local
    variables to their new values; when one raises, the suite stops and the
    variables keep what the statements before it assigned. *)
Fixpoint try_suite {L} (stmts : list (L → Prog L)) (l : L) : Prog (L * option Exn) :=
  match stmts with
  | [] => Ret (l, None)
  | stmt :: rest =>
      r <- try_except (l' <- stmt l ;; Ret (inr l')) (λ e, Ret (inl e)) ;;
      match r with
      | inr l' => try_suite rest l'
      | inl e => Ret (l, Some e)
      end
  end.

(** The local variables of [upsert] that are read after the [try]. *)
Record UpsertLocals := {
  l_status : bool;
  l_existing_model : option Entity;
  l_model : Entity
}.

Definition upsert (model : Entity) (return_json : bool) : Prog Response :=
  let model_class := cls model in
  let locals :=
    {| l_status := true; l_existing_model := None; l_model := model |} in
  l <- with_session
         ('(l, raised) <- try_suite
            [ (λ l,
                 found <- call (SessionExec
                                  {| q_class := model_class;
                                     q_where := [("id", row_id (fields (l_model l)))];
                                     q_order := None |}) ;;
                 Ret {| l_status := l_status l;
                        l_existing_model := head found;
                        l_model := l_model l |});
              (λ l,
                 match l_existing_model l with
                 | Some existing_model =>
                     now <- perform Now ;;
                     let model := setattr (l_model l) "updated_at" (VTime now) in
                     let existing_model :=
                       setattr_all existing_model (model_dump model) in
                     perform (SessionAdd existing_model) ;;
                     Ret {| l_status := l_status l;
                            l_existing_model := Some existing_model;
                            l_model := existing_model |}
                 | None =>
                     let model :=
                       match fields (l_model l) !! "config" with
                       | Some config =>
                           if has_model_dump config
                           then setattr (l_model l) "config" (dump_value config)
                           else l_model l
                       | None => l_model l
                       end in
                     perform (SessionAdd model) ;;
                     Ret {| l_status := l_status l;
                            l_existing_model := None;
                            l_model := model |}
                 end);
              (λ l, call SessionCommit ;; Ret l);
              (λ l,
                 refreshed <- call (SessionRefresh (l_model l)) ;;
                 Ret {| l_status := l_status l;
                        l_existing_model := l_existing_model l;
                        l_model := refreshed |}) ]
            locals ;;
          match raised with
          | Some e =>
              perform SessionRollback ;;
              (* the logged text is the traceback of [e] *)
              perform (Log "ERROR" ("Error while updating/creating "
                                    +:+ class_name model_class +:+ ": " +:+ exn_str e)) ;;
              Ret {| l_status := false;
                     l_existing_model := l_existing_model l;
                     l_model := l_model l |}
          | None => Ret l
          end) ;;
  Ret {| message :=
           match l_existing_model l with
           | Some _ => class_name model_class +:+ " Updated Successfully"
           | None => class_name model_class +:+ " Created Successfully"
           end;
         status := l_status l;
         data := DItem (if return_json then IDict (model_dump (l_model l))
                        else IModel (l_model l)) |}.

(** [[getattr(model_class, col) == value for col, value in filters.items()]];
    a column the class does not declare raises [AttributeError]. *)
Fixpoint conditions (model_class : ModelClass) (filters : list (string * Value))
    : Prog (list (string * Value)) :=
  match filters with
  | [] => Ret []
  | (col, value) :: rest =>
      if bool_decide (col ∈ class_attrs model_class) then
        conds <- conditions model_class rest ;;
        Ret ((col, value) :: conds)
      else Throw (AttributeError col)
  end.

(** [getattr(model_class.created_at, order)()] *)
Definition order_by_clause (order : string) : Prog bool :=
  if String.eqb order "desc" then Ret true
  else if String.eqb order "asc" then Ret false
  else Throw (AttributeError order).

(** [filters] holds the items of the dictionary; [None] and the empty
    dictionary take the same branch. *)
Definition get (model_class : ModelClass) (filters : list (string * Value))
    (return_json : bool) (order : string) : Prog Response :=
  with_session
    ('(result, status, status_message) <-
       try_except
         (conds <- conditions model_class filters ;;
          ordering <-
            (if bool_decide ("created_at" ∈ class_attrs model_class)
                && negb (String.eqb order "")
             then desc <- order_by_clause order ;; Ret (Some desc)
             else Ret None) ;;
          items <- call (SessionExec {| q_class := model_class;
                                        q_where := conds;
                                        q_order := ordering |}) ;;
          Ret ((λ item, if return_json then IDict (model_dump_json item)
                        else IModel item) <$> items,
               true,
               class_name model_class +:+ " Retrieved Successfully"))
         (λ e,
            perform SessionRollback ;;
            perform (Log "ERROR" ("Error while getting items: "
                                  +:+ class_name model_class +:+ " " +:+ exn_str e)) ;;
            Ret ([], false, "Error while fetching " +:+ class_name model_class)) ;;
     Ret {| message := status_message; status := status; data := DList result |}).

(** [for row in rows: session.delete(row)] *)
Fixpoint delete_rows (rows : list Entity) : Prog unit :=
  match rows with
  | [] => Ret tt
  | row :: rest => perform (SessionDelete row) ;; delete_rows rest
  end.

Definition delete (model_class : ModelClass) (filters : list (string * Value))
    : Prog Response :=
  '(status, status_message) <-
    with_session
      (try_except
         (conds <- conditions model_class filters ;;
          rows <- call (SessionExec {| q_class := model_class;
                                       q_where := conds;
                                       q_order := None |}) ;;
          if bool_decide (rows ≠ []) then
            delete_rows rows ;;
            call SessionCommit ;;
            Ret (true, class_name model_class +:+ " Deleted Successfully")
          else
            (* the logged text also renders [filters] *)
            perform (Log "INFO" "Row with filters not found") ;;
            Ret (true, "Row not found"))
         (λ e,
            match e with
            | IntegrityError _ =>
                perform SessionRollback ;;
                let status_message :=
                  "Integrity error: The " +:+ class_name model_class
                  +:+ " is linked to another entity and cannot be deleted. "
                  +:+ exn_str e in
                perform (Log "ERROR" status_message) ;;
                Ret (false, status_message)
            | _ =>
                perform SessionRollback ;;
                let status_message := "Error while deleting: " +:+ exn_str e in
                perform (Log "ERROR" status_message) ;;
                Ret (false, status_message)
            end)) ;;
  Ret {| message := status_message; status := status; data := DNone |}.

(** *** Team import *)

(** Modelled from the spec: the [Team] class is declared in the data model,
    which is not among the sources.  A team is a persistable entity (an
    identifier, a creation and an update timestamp) owned by a user and
    carrying a configuration payload; the constructor call of [import_team]
    sets the owner, the payload and the creation timestamp and leaves the
    identifier unset. *)
Definition Team_class : ModelClass :=
  {| class_name := "Team";
     class_attrs := ["id"; "created_at"; "updated_at"; "user_id"; "component"] |}.

Definition Team (user_id : string) (component : Config) (created_at : Z) : Entity :=
  {| cls := Team_class;
     fields :=
       <["id" := VNone]>
         (<["created_at" := VTime created_at]>
            (<["updated_at" := VNone]>
               (<["user_id" := VStr user_id]>
                  {["component" := VJson component]}))) |}.

(** [team_config: Union[str, Path, Dict[str, Any]]] *)
Inductive TeamSource :=
| FromPath (path : string)
| Inline (config : Config).

(** [item.attr] on an element of a result list. *)
Definition item_getattr (item : Item) (key : string) : Exn + Value :=
  match item with
  | IModel m => getattr m key
  | IDict _ => inl (AttributeError key)
  end.

(** [value == config] for an attribute value and a caller's payload. *)
Definition equals_config (v : Value) (config : Config) : bool :=
  match v with
  | VJson c => py_eq c config
  | _ => false
  end.

(** [for team in teams: if team.component == config: return team] *)
Fixpoint first_identical (teams : list Item) (config : Config) : Prog (option Item) :=
  match teams with
  | [] => Ret None
  | team :: rest =>
      component <- lift (item_getattr team "component") ;;
      if equals_config component config then Ret (Some team)
      else first_identical rest config
  end.

Definition _check_team_exists (config : Config) (user_id : string)
    : Prog (option Item) :=
  response <- get Team_class [("user_id", VStr user_id)] false "desc" ;;
  let teams := data response in
  if negb (truthy teams) then Ret None
  else
    match teams with
    | DList teams => first_identical teams config
    | _ => Ret None
    end.

Definition import_team (team_config : TeamSource) (user_id : string)
    (check_exists : bool) : Prog Response :=
  try_except
    (config <- match team_config with
               | FromPath path => call (LoadFromFile path)
               | Inline config => Ret config
               end ;;
     existing <- (if check_exists then _check_team_exists config user_id
                  else Ret None) ;;
     match existing with
     | Some existing =>
         id <- lift (item_getattr existing "id") ;;
         Ret {| message := "Identical team configuration already exists";
                status := true;
                data := DItem (IDict {["id" := id]}) |}
     | None =>
         now <- perform Now ;;
         let team_db := Team user_id config now in
         upsert team_db true
     end)
    (λ e,
       perform (Log "ERROR" ("Failed to import team: " +:+ exn_str e)) ;;
       Ret {| message := exn_str e; status := false; data := DNone |}).

(** [result.data.get("id")] *)
Definition data_get (d : Data) (key : string) : Exn + Value :=
  match d with
  | DItem (IDict d) => inr (default VNone (d !! key))
  | _ => inl (AttributeError "get")
  end.

(** The entry appended to [results] for one configuration. *)
Definition import_entry (config : Config) (user_id : string) (check_exists : bool)
    : Prog (gmap string Value) :=
  try_except
    (result <- import_team (Inline config) user_id check_exists ;;
     if negb (truthy (data result)) then
       Throw (ValueError "No data returned from import")
     else
       id <- (if status result then lift (data_get (data result) "id")
              else Ret VNone) ;;
       Ret (<["status" := VBool (status result)]>
              (<["message" := VStr (message result)]>
                 {["id" := id]})))
    (λ e,
       perform (Log "ERROR" ("Failed to import team config: " +:+ exn_str e)) ;;
       Ret (<["status" := VBool false]>
              (<["message" := VStr (exn_str e)]>
                 {["id" := VNone]}))).

(** [for config in configs: ... results.append(...)] *)
Fixpoint import_each (configs : list Config) (user_id : string) (check_exists : bool)
    (results : list (gmap string Value)) : Prog (list (gmap string Value)) :=
  match configs with
  | [] => Ret results
  | config :: rest =>
      entry <- import_entry config user_id check_exists ;;
      import_each rest user_id check_exists (results ++ [entry])
  end.

Definition import_teams_from_directory (directory user_id : string)
    (check_exists : bool) : Prog Response :=
  try_except
    (configs <- call (LoadFromDirectory directory) ;;
     results <- import_each configs user_id check_exists [] ;;
     Ret {| message := "Directory import complete";
            status := true;
            data := DList (IDict <$> results) |})
    (λ e,
       perform (Log "ERROR" ("Failed to import directory: " +:+ exn_str e)) ;;
       Ret {| message := exn_str e; status := false; data := DNone |}).

Definition close : Prog unit :=
  perform (Log "INFO" "Closing database connections...") ;;
  try_except
    (call EngineDispose ;;
     perform (Log "INFO" "Database connections closed successfully"))
    (λ e,
       perform (Log "ERROR" ("Error closing database connections: " +:+ exn_str e)) ;;
       Throw e).

(** ** 7. Two callers on one manager *)

(** One operation of a method is one atomic step; a method that has returned
    or raised stays where it is. *)
Definition step {A} (p : Prog A) (w : World) : Prog A * World :=
  match p with
  | Vis op k => let '(x, w') := handle op w in (k x, w')
  | _ => (p, w)
  end.

Inductive Thread := ThreadA | ThreadB.

#[global] Instance Thread_eq_dec : EqDecision Thread.
Proof. solve_decision. Defined.

(** What a step did to the lock, if anything. *)
Inductive LockEvent :=
| Acquired
| Contended
| Released
| ReleaseRefused
| SawLocked (locked : bool).

#[global] Instance LockEvent_eq_dec : EqDecision LockEvent.
Proof. solve_decision. Defined.

Definition lock_event {A} (p : Prog A) (w : World) : option LockEvent :=
  match p with
  | Vis op _ =>
      match op with
      | LockAcquire => Some (if init_lock w then Contended else Acquired)
      | LockRelease => Some (if init_lock w then Released else ReleaseRefused)
      | LockLocked => Some (SawLocked (init_lock w))
      | _ => None
      end
  | _ => None
  end.

Definition note (t : Thread) (ev : option LockEvent)
    (trace : list (Thread * LockEvent)) : list (Thread * LockEvent) :=
  match ev with
  | Some ev => trace ++ [(t, ev)]
  | None => trace
  end.

(** Two methods running against one world; the schedule says whose step
    comes next. The result keeps what each thread has left to do, the world,
    and what happened to the lock, in order. *)
Fixpoint interleave {A B} (schedule : list Thread) (pa : Prog A) (pb : Prog B)
    (w : World) (trace : list (Thread * LockEvent))
    : Prog A * Prog B * World * list (Thread * LockEvent) :=
  match schedule with
  | [] => (pa, pb, w, trace)
  | ThreadA :: rest =>
      let '(pa', w') := step pa w in
      interleave rest pa' pb w' (note ThreadA (lock_event pa w) trace)
  | ThreadB :: rest =>
      let '(pb', w') := step pb w in
      interleave rest pa pb' w' (note ThreadB (lock_event pb w) trace)
  end.

(** Who holds the gate after a trace: the thread of the last successful
    acquire, unless a release came after it. *)
Definition holder (trace : list (Thread * LockEvent)) : option Thread :=
  foldl (λ h ev, match ev.2 with
                 | Acquired => Some ev.1
                 | Released => None
                 | _ => h
                 end) None trace.

(** The releases in a trace that let go of a gate another thread held. *)
Fixpoint foreign_releases (seen rest : list (Thread * LockEvent))
    : list (Thread * Thread) :=
  match rest with
  | [] => []
  | ev :: rest' =>
      match ev.2, holder seen with
      | Released, Some owner =>
          if bool_decide (owner = ev.1) then foreign_releases (seen ++ [ev]) rest'
          else (ev.1, owner) :: foreign_releases (seen ++ [ev]) rest'
      | _, _ => foreign_releases (seen ++ [ev]) rest'
      end
  end.

(** ** 8. Vocabulary of the properties *)

(** The operations that change who holds the gate. *)
Definition touches_lock {X} (op : Op X) : bool :=
  match op with
  | LockAcquire | LockRelease => true
  | _ => false
  end.

(** Programs that never acquire nor release the gate. *)
Inductive gate_free {A} : Prog A → Prop :=
| gate_free_ret a : gate_free (Ret a)
| gate_free_throw e : gate_free (Throw e)
| gate_free_vis {X} (op : Op X) k :
    touches_lock op = false → (∀ x, gate_free (k x)) → gate_free (Vis op k).

(** No fault is scheduled for the coming calls of [c]. *)
Definition reliable (c : Call) (w : World) : Prop := faults w c = [].

(** [p] returns (does not raise) from every world. *)
Definition returns {A} (p : Prog A) : Prop :=
  ∀ w : World, ∃ a w', run p w = (inr a, w').

(** [entries] are the entries [import_entry] produced for [configs], one
    after the other, each import starting in the world the one before it
    left. *)
Fixpoint entries_of (configs : list Config) (user_id : string) (check_exists : bool)
    (w : World) (entries : list (gmap string Value)) (w' : World) : Prop :=
  match configs, entries with
  | [], [] => w' = w
  | config :: configs, entry :: entries =>
      ∃ w1, run (import_entry config user_id check_exists) w = (inr entry, w1)
            ∧ entries_of configs user_id check_exists w1 entries w'
  | _, _ => False
  end.





(** The order [get] returns rows in: by creation timestamp, in the
    direction asked for. *)
Definition in_order (desc : bool) (a b : gmap string Value) : Prop :=
  if desc then created_key b ≤ created_key a else created_key a ≤ created_key b.

(** The rows a conjunction of equality conditions selects. *)
Definition satisfies (filters : list (string * Value)) (row : gmap string Value) : Prop :=
  Forall (λ cond, row !! cond.1 = Some cond.2) filters.

(** How [get] renders a row. *)
Definition rendered (model_class : ModelClass) (return_json : bool)
    (row : gmap string Value) : Item :=
  if return_json then IDict (json_value <$> row)
  else IModel {| cls := model_class; fields := row |}.

End Model.

Arguments Ret {Config A} a.
Arguments Throw {Config A} e.
Arguments Vis {Config A X} op k.

(** ** 9. Sample worlds *)

(** Configurations are written as strings in the samples; a string comes
    back from the column as it went in. *)
#[global] Instance string_payload : Payload string :=
  {| stored := λ c, c; py_eq := String.eqb |}.

Definition no_faults : Call → list (option Exn) := λ _, [].

Definition fault_at (c : Call) (e : Exn) : Call → list (option Exn) :=
  λ c', if decide (c' = c) then [Some e] else [].

Definition sample_schema_manager : SchemaManager :=
  {| initialize_migrations := λ _, true;
     check_schema_status := false;
     ensure_schema_up_to_date := true |}.

Definition failing_schema_manager : SchemaManager :=
  {| initialize_migrations := λ _, false;
     check_schema_status := true;
     ensure_schema_up_to_date := false |}.

Definition sample_team_manager : TeamManager (Config := string) :=
  {| load_from_file := λ path, inl (Error ("cannot read " +:+ path));
     load_from_directory := λ directory,
       if String.eqb directory "teams" then inr ["planner"; "coder"]
       else inl (Error ("no such directory: " +:+ directory)) |}.

(** An embedded database with an empty [Team] table. *)
Definition sample_world : World (Config := string) :=
  {| init_lock := false;
     engine := init_engine "sqlite:///magentic.db";
     metadata := ["Team"];
     tables := {["Team" := []]};
     referenced := [];
     session := new_session;
     schema_manager := sample_schema_manager;
     team_manager := sample_team_manager;
     clock := 1000;
     faults := no_faults;
     executed := [];
     log := [] |}.

Definition with_faults (f : Call → list (option Exn)) (w : World (Config := string))
    : World (Config := string) := set_faults f w.

(** One persisted team, owned by ["alice"], that a dependent row points to. *)
Definition alice_team : gmap string (Value (Config := string)) :=
  <["id" := VInt 1]>
    (<["created_at" := VTime 10]>
       (<["updated_at" := VTime 10]>
          (<["user_id" := VStr "alice"]>
             {["component" := VJson "planner"]}))).

Definition world_with_team : World (Config := string) :=
  set_store {["Team" := [alice_team]]} [("Team", VInt 1)] sample_world.

(** An incoming team with the identifier of the persisted one and fields of
    its own. *)
Definition incoming_team : Entity (Config := string) :=
  {| cls := Team_class;
     fields :=
       <["id" := VInt 1]>
         (<["created_at" := VTime 99]>
            (<["updated_at" := VNone]>
               (<["user_id" := VStr "alice"]>
                  {["component" := VJson "coder"]}))) |}.

(** A payload that is a run of names, given as a tuple or as a list.  JSON
    has no tuples: the column hands a tuple back as a list, and a tuple does
    not compare equal to a list. *)
Inductive Names :=
| NamesTuple (names : list string)
| NamesList (names : list string).

#[global] Instance Names_eq_dec : EqDecision Names.
Proof. solve_decision. Defined.

#[global] Instance names_payload : Payload Names :=
  {| stored := λ c, match c with NamesTuple l | NamesList l => NamesList l end;
     py_eq := λ a b, bool_decide (a = b) |}.



(** A schedule for two callers: [reset_db] runs up to the release that ends
    its drop block, [initialize_database] takes the gate, [reset_db] runs to
    its end, [initialize_database] runs to its end. *)
Definition racing_schedule : list Thread :=
  replicate 12 ThreadA ++ [ThreadB] ++ replicate 6 ThreadA ++ replicate 5 ThreadB.

(** What the claim C3 asks of the creation timestamp: the row that carries
    the identifier of [model] after the upsert has the creation timestamp of
    the row that carried it before. *)
Definition preserves_creation_timestamp (w : World (Config := string))
    (model : Entity (Config := string)) : Prop :=
  let w' := (run (upsert model true) w).2 in
  ∀ rows rows' old new,
    tables w !! class_name (cls model) = Some rows →
    tables w' !! class_name (cls model) = Some rows' →
    old ∈ rows → row_id old = row_id (fields model) →
    new ∈ rows' → row_id new = row_id (fields model) →
    new !! "created_at" = old !! "created_at".

(** A world in which every step of the schema manager fails. *)
Definition world_with_failing_migrations : World (Config := string) :=
  {| init_lock := false;
     engine := init_engine "sqlite:///magentic.db";
     metadata := ["Team"];
     tables := {["Team" := [alice_team]]};
     referenced := [];
     session := new_session;
     schema_manager := failing_schema_manager;
     team_manager := sample_team_manager;
     clock := 1000;
     faults := no_faults;
     executed := [];
     log := [] |}.

(** * Properties *)

(** *** Substring search meets its specification *)

Lemma startswith_spec needle s :
  startswith needle s = true ↔ ∃ post, s = (needle ++ post)%string.
Proof.
  revert s. induction needle as [|a needle IH]; intros s; simpl.
  - split; [intros _; by exists s | done].
  - destruct s as [|b s].
    + split; [done | intros [post Hp]; discriminate].
    + rewrite andb_true_iff, IH, Ascii.eqb_eq. split.
      * intros [-> [post ->]]. by exists post.
      * intros [post Hp]. injection Hp as -> ->. eauto.
Qed.

Lemma str_in_spec needle s : str_in needle s = true ↔ occurs_in needle s.
Proof.
  unfold occurs_in. induction s as [|b s IH]; simpl.
  - rewrite orb_false_r, startswith_spec. split.
    + intros [post Hp]. by exists EmptyString, post.
    + intros [pre [post Hp]]. destruct pre; simpl in Hp.
      * by exists post.
      * discriminate.
  - rewrite orb_true_iff, startswith_spec, IH. split.
    + intros [[post Hp] | [pre [post Hp]]].
      * by exists EmptyString, post.
      * exists (String b pre), post. simpl. by rewrite Hp.
    + intros [pre [post Hp]]. destruct pre as [|c pre]; simpl in Hp.
      * left. by exists post.
      * right. injection Hp as -> ->. by exists pre, post.
Qed.

Lemma init_engine_sqlite uri :
  str_in "sqlite" uri = true → embedded_tuning (init_engine uri).
Proof.
  intros H. unfold embedded_tuning, init_engine. rewrite H. simpl.
  unfold dict_update, set_sqlite_pragma.
  repeat split; try reflexivity; set_solver.
Qed.

Lemma init_engine_other uri :
  str_in "sqlite" uri = false → bounded_pool_tuning (init_engine uri).
Proof.
  intros H. unfold bounded_pool_tuning, init_engine. rewrite H. simpl.
  repeat split; reflexivity.
Qed.

Lemma tunings_exclusive e : embedded_tuning e → bounded_pool_tuning e → False.
Proof. intros (H & _) (H' & _). congruence. Qed.

(** ** The provisioner *)

(** C9. The embedded tuning (static pool, cross-thread use, no driver
    transaction management, 15 s lock wait, the pragmas) is what a URI gets
    exactly when ["sqlite"] occurs somewhere in it, whatever its scheme; every
    other URI gets the bounded pool. *)
Theorem provisioner_selects_backend_by_substring (uri : string) :
  (occurs_in "sqlite" uri ↔ embedded_tuning (init_engine uri)) ∧
  (¬ occurs_in "sqlite" uri ↔ bounded_pool_tuning (init_engine uri)).
Proof.
  rewrite <- str_in_spec.
  destruct (str_in "sqlite" uri) eqn:Hin.
  - pose proof (init_engine_sqlite uri Hin) as Hemb. split; split; try done.
    intros Hb. exfalso. eauto using tunings_exclusive.
  - pose proof (init_engine_other uri Hin) as Hb. split; split; try done.
    intros Hemb. exfalso. eauto using tunings_exclusive.
Qed.

(** The scheme plays no part: a client/server URI whose database name
    happens to contain the word is tuned as an embedded one. *)
Example provisioner_ignores_scheme :
  embedded_tuning (init_engine "postgresql://app@db/sqlite_archive").
Proof. by apply init_engine_sqlite. Qed.

(** ** Running programs *)

Section Properties.

Context {Config : Type} `{EqDecision Config} `{Payload Config}.

Local Abbreviation World := (@World Config).
Local Abbreviation Prog := (@Prog Config).
Local Abbreviation Entity := (@Entity Config).
Local Abbreviation Value := (@Value Config).
Local Abbreviation Response := (@Response Config).
Local Abbreviation Op := (@Op Config).
Local Abbreviation Item := (@Item Config).
Local Abbreviation TeamSource := (@TeamSource Config).
Local Abbreviation returns := (returns (Config:=Config)).

Lemma run_bind {A B} (p : Prog A) (f : A → Prog B) (w : World) :
  run (bind p f) w =
  match run p w with
  | (inr a, w') => run (f a) w'
  | (inl e, w') => (inl e, w')
  end.
Proof.
  revert w. induction p as [a|e|X op k IH]; intros w; simpl; try done.
  destruct (handle op w) as [x w']. apply IH.
Qed.

Lemma run_try_except {A} (p : Prog A) (h : Exn → Prog A) (w : World) :
  run (try_except p h) w =
  match run p w with
  | (inr a, w') => (inr a, w')
  | (inl e, w') => run (h e) w'
  end.
Proof.
  revert w. induction p as [a|e|X op k IH]; intros w; simpl; try done.
  destruct (handle op w) as [x w']. apply IH.
Qed.

Lemma run_try_finally {A} (p : Prog A) (fin : Prog unit) (w : World) :
  run (try_finally p fin) w =
  match run fin (run p w).2 with
  | (inr _, w') => ((run p w).1, w')
  | (inl e, w') => (inl e, w')
  end.
Proof.
  revert w. induction p as [a|e|X op k IH]; intros w; simpl.
  - rewrite run_bind. by destruct (run fin w) as [[?|?] ?].
  - rewrite run_bind. by destruct (run fin w) as [[?|?] ?].
  - destruct (handle op w) as [x w']. apply IH.
Qed.

Lemma run_perform {X} (op : Op X) (w : World) :
  run (perform op) w = (inr (handle op w).1, (handle op w).2).
Proof. unfold perform. simpl. by destruct (handle op w). Qed.

Lemma run_call {X} (op : Op (Exn + X)) (w : World) :
  run (call op) w = ((handle op w).1, (handle op w).2).
Proof. unfold call. simpl. by destruct (handle op w) as [[?|?] ?]. Qed.

Lemma run_with_session {A} (body : Prog A) (w : World) :
  run (with_session body) w =
  ((run body (set_session new_session w)).1,
   set_session new_session (run body (set_session new_session w)).2).
Proof.
  unfold with_session. rewrite run_bind, run_perform. simpl.
  rewrite run_try_finally, run_perform. done.
Qed.

(** ** The gate *)

Lemma init_lock_consume_fault c (w : World) :
  init_lock (consume_fault c w) = init_lock w.
Proof. unfold consume_fault. by destruct (faults w c). Qed.

Lemma handle_init_lock {X} (op : Op X) (w : World) :
  touches_lock op = false → init_lock (handle op w).2 = init_lock w.
Proof.
  destruct op; simpl; intros Hop; try discriminate; unfold guarded;
    repeat (case_match; simpl); by rewrite ?init_lock_consume_fault.
Qed.

Lemma gate_free_run {A} (p : Prog A) (w : World) :
  gate_free p → init_lock (run p w).2 = init_lock w.
Proof.
  intros Hp. revert w. induction Hp as [a|e|X op k Hop Hk IH]; intros w; simpl; try done.
  pose proof (handle_init_lock op w Hop) as Hw.
  destruct (handle op w) as [x w']. by rewrite IH.
Qed.

Lemma gate_free_bind {A B} (p : Prog A) (f : A → Prog B) :
  gate_free p → (∀ a, gate_free (f a)) → gate_free (bind p f).
Proof. intros Hp Hf. induction Hp; simpl; eauto using @gate_free. Qed.

Lemma gate_free_try_except {A} (p : Prog A) (h : Exn → Prog A) :
  gate_free p → (∀ e, gate_free (h e)) → gate_free (try_except p h).
Proof. intros Hp Hh. induction Hp; simpl; eauto using @gate_free. Qed.

Lemma gate_free_try_finally {A} (p : Prog A) (fin : Prog unit) :
  gate_free p → gate_free fin → gate_free (try_finally p fin).
Proof.
  intros Hp Hf. induction Hp; simpl; eauto using @gate_free, @gate_free_bind.
Qed.

Lemma gate_free_perform {X} (op : Op X) :
  touches_lock op = false → gate_free (perform op).
Proof. intros. constructor; eauto using @gate_free. Qed.

Lemma gate_free_call {X} (op : Op (Exn + X)) :
  touches_lock op = false → gate_free (call op).
Proof. intros. constructor; [done|]. intros [?|?]; constructor. Qed.

Lemma gate_free_lift {X} (r : Exn + X) : gate_free (lift (Config:=Config) r).
Proof. destruct r; constructor. Qed.

Ltac gate_free :=
  repeat first
    [ apply gate_free_ret
    | apply gate_free_throw
    | apply gate_free_lift
    | apply gate_free_perform; reflexivity
    | apply gate_free_call; reflexivity
    | apply gate_free_bind; [|intros ?]
    | apply gate_free_try_except; [|intros ?]
    | apply gate_free_try_finally
    | match goal with
      | |- gate_free (if ?b then _ else _) => destruct b
      | |- gate_free (match ?x with _ => _ end) => destruct x
      end ].

(** A [try] whose handler always returns, returns. *)
Lemma try_except_returns {A} (p : Prog A) (h : Exn → Prog A) (w : World) :
  (∀ e w', ∃ a w'', run (h e) w' = (inr a, w'')) →
  ∃ a w', run (try_except p h) w = (inr a, w').
Proof.
  intros Hh. rewrite run_try_except.
  destruct (run p w) as [[e|a] w']; eauto.
Qed.

(** The suite of [initialize_database] under its [try ... except]. *)
Lemma initialize_database_body (auto_upgrade force : bool) (w : World) :
  init_lock w = false →
  ∃ r w', run (initialize_database auto_upgrade force) w = (inr r, w')
          ∧ init_lock w' = false.
Proof.
  intros Hfree. unfold initialize_database.
  rewrite run_bind, run_perform. cbn [handle]. rewrite Hfree. cbn [fst snd negb].
  rewrite run_try_finally.
  match goal with |- context [run (try_except ?p ?h) ?w1] =>
    destruct (try_except_returns p h w1) as (r & w2 & Hrun);
    [ intros e w'; rewrite run_bind, run_perform; simpl; eauto |];
    assert (init_lock (run (try_except p h) w1).2 = init_lock w1) as Hgate
      by (apply gate_free_run; unfold _should_auto_upgrade; gate_free)
  end.
  rewrite Hrun in *. simpl in Hgate.
  rewrite run_call. simpl. rewrite Hgate. simpl. eauto.
Qed.

(** C1. A call that finds the gate held returns the contention result at
    once, having done nothing else; a call that acquires the gate returns a
    result with the gate released, whatever the backend did in between. *)
Theorem initialize_database_gate (auto_upgrade force_init_alembic : bool) (w : World) :
  (init_lock w = true →
   run (initialize_database auto_upgrade force_init_alembic) w =
   (inr {| message := "Database initialization already in progress";
           status := false; data := DNone |}, w)) ∧
  (init_lock w = false →
   ∃ r w', run (initialize_database auto_upgrade force_init_alembic) w = (inr r, w')
           ∧ init_lock w' = false).
Proof.
  split.
  - intros Hheld. unfold initialize_database. simpl. by rewrite Hheld.
  - apply initialize_database_body.
Qed.

(** ** Calls that go through *)

Lemma guarded_reliable {X} c (w : World) (ok : World → (Exn + X) * World) :
  reliable c w → guarded c w ok = ok w.
Proof.
  unfold reliable, guarded, next_fault, consume_fault. by intros ->.
Qed.

(** Symbolic execution of the program under [run], up to the next call
    that may fail. *)
Ltac exec :=
  cbn [run bind try_except try_finally with_session perform call lift
       handle fst snd negb
       init_lock engine metadata tables referenced session schema_manager
       team_manager clock faults executed log
       set_init_lock set_store set_session set_faults add_executed add_log
       flush identity pending assigned new_session
       try_suite q_class q_where q_order run_query
       l_status l_existing_model l_model app].

Ltac through :=
  rewrite guarded_reliable by (unfold reliable in *; cbn; assumption).

Lemma drop_all_tables_succeeds (w : World) :
  init_lock w = true →
  reliable CExecute w → reliable CDropAll w → reliable CCommit w →
  ∃ w', run drop_all_tables w = (inr tt, w') ∧ init_lock w' = false.
Proof.
  intros Hheld Hexecute Hdrop Hcommit. unfold drop_all_tables.
  exec. destruct (str_in "sqlite" (engine_url (engine w))) eqn:Hurl;
    exec; repeat (first [through | rewrite Hurl | rewrite Hheld]; exec); eauto.
Qed.

(** C10. When the drop of the tables goes through, [reset_db] with
    [recreate_tables=True] reports success whatever the nested
    [initialize_database] returns: that result is dropped on the floor. *)
Theorem reset_db_discards_initialize_result (w : World) :
  init_lock w = false →
  reliable CDispose w → reliable CExecute w →
  reliable CDropAll w → reliable CCommit w →
  ∃ w', run (reset_db true) w =
        (inr {| message := "Database reset successfully";
                status := true; data := DNone |}, w').
Proof.
  intros Hfree Hdispose Hexecute Hdrop Hcommit. unfold reset_db.
  exec. rewrite Hfree. exec. through.
  rewrite run_try_finally, run_try_except.
  match goal with |- context [run ?p (set_init_lock true w)] =>
    assert (∃ w4, run p (set_init_lock true w) =
                  (inr {| message := "Database reset successfully";
                          status := true; data := DNone |}, w4)
                  ∧ init_lock w4 = false) as (w4 & -> & Hgate)
  end.
  { exec. rewrite run_bind.
    destruct (drop_all_tables_succeeds (set_init_lock true w))
      as (w2 & -> & Hgate2); try done.
    exec. rewrite !run_bind.
    destruct (initialize_database_body false true
                (add_log "INFO" "Recreating tables..." w2))
      as (r & w3 & -> & Hgate3); [done|].
    exec. eauto. }
  exec. rewrite Hgate. exec. eauto.
Qed.


(** X2. With a single caller the clean-up of [reset_db] does what it is
    there for: whichever way the body ends, the method returns with the gate
    free. *)
Lemma reset_db_single_caller (recreate_tables : bool) (w : World) :
  init_lock w = false →
  ∃ r w', run (reset_db recreate_tables) w = (inr r, w') ∧ init_lock w' = false.
Proof.
  intros Hfree. unfold reset_db.
  rewrite run_bind, run_perform. cbn [handle]. rewrite Hfree. cbn [fst snd negb].
  rewrite run_try_finally.
  match goal with |- context [run (try_except ?p ?h) ?w1] =>
    destruct (try_except_returns p h w1) as (r & w2 & ->);
    [ intros e w'; exec; eauto |]
  end.
  cbn [fst snd]. exec.
  destruct (init_lock w2) eqn:Hlock; exec; rewrite ?Hlock; exec; eauto.
Qed.

(** ** Operations that return a result *)

Lemma returns_ret {A} (a : A) : returns (Ret a).
Proof. intros w. simpl. eauto. Qed.

Lemma returns_bind {A B} (p : Prog A) (f : A → Prog B) :
  returns p → (∀ a, returns (f a)) → returns (bind p f).
Proof.
  intros Hp Hf w. rewrite run_bind.
  destruct (Hp w) as (a & w' & ->). apply Hf.
Qed.

Lemma returns_try_except {A} (p : Prog A) (h : Exn → Prog A) :
  (∀ e, returns (h e)) → returns (try_except p h).
Proof. intros Hh w. apply try_except_returns. intros e w'. apply Hh. Qed.

Lemma returns_try_finally {A} (p : Prog A) (fin : Prog unit) :
  returns p → returns fin → returns (try_finally p fin).
Proof.
  intros Hp Hfin w. rewrite run_try_finally.
  destruct (Hp w) as (a & w' & ->). simpl.
  destruct (Hfin w') as ([] & w'' & ->). eauto.
Qed.

Lemma returns_perform {X} (op : Op X) : returns (perform op).
Proof. intros w. rewrite run_perform. eauto. Qed.

Lemma returns_with_session {A} (body : Prog A) :
  returns body → returns (with_session body).
Proof.
  intros Hb. apply returns_bind; [apply returns_perform|]. intros _.
  apply returns_try_finally; [done | apply returns_perform].
Qed.

Lemma returns_try_suite {L} (stmts : list (L → Prog L)) (l : L) :
  returns (try_suite stmts l).
Proof.
  revert l. induction stmts as [|stmt rest IH]; intros l; simpl.
  - apply returns_ret.
  - apply returns_bind.
    + apply returns_try_except. intros e. apply returns_ret.
    + intros [e|l']; [apply returns_ret | apply IH].
Qed.

Ltac returns :=
  repeat first
    [ apply returns_ret
    | apply returns_perform
    | apply returns_try_suite
    | apply returns_try_except; intros ?
    | apply returns_with_session
    | apply returns_bind; [|intros ?]
    | match goal with
      | |- returns (match ?x with _ => _ end) => destruct x
      end ].

Lemma upsert_returns (model : Entity) (return_json : bool) :
  returns (upsert model return_json).
Proof. unfold upsert. returns. Qed.

Lemma get_returns model_class (filters : list (string * Value)) return_json order :
  returns (get model_class filters return_json order).
Proof. unfold get. returns. Qed.

Lemma delete_returns model_class (filters : list (string * Value)) :
  returns (delete model_class filters).
Proof. unfold delete. returns. Qed.

Lemma import_team_returns (team_config : TeamSource) user_id check_exists :
  returns (import_team team_config user_id check_exists).
Proof. unfold import_team. returns. Qed.

Lemma import_entry_returns (config : Config) user_id check_exists :
  returns (import_entry config user_id check_exists).
Proof. unfold import_entry. returns. Qed.

Lemma import_each_returns (configs : list Config) user_id check_exists results :
  returns (import_each configs user_id check_exists results).
Proof.
  revert results. induction configs as [|config rest IH]; intros results; simpl.
  - apply returns_ret.
  - apply returns_bind; [apply import_entry_returns | intros entry; apply IH].
Qed.

Lemma import_teams_from_directory_returns directory user_id check_exists :
  returns (import_teams_from_directory (Config:=Config) directory user_id check_exists).
Proof. unfold import_teams_from_directory. returns. Qed.

Lemma initialize_database_returns auto_upgrade force :
  returns (initialize_database (Config:=Config) auto_upgrade force).
Proof.
  intros w. destruct (init_lock w) eqn:Hlock.
  - unfold initialize_database. exec. rewrite Hlock. exec. eauto.
  - destruct (initialize_database_body auto_upgrade force w Hlock)
      as (r & w' & -> & _). eauto.
Qed.

Lemma reset_db_returns recreate_tables :
  returns (reset_db (Config:=Config) recreate_tables).
Proof.
  unfold reset_db. apply returns_bind; [apply returns_perform|].
  intros [|]; cbn [negb]; [|returns].
  apply returns_try_finally; [returns|].
  intros w. exec. destruct (init_lock w) eqn:Hlock; exec; rewrite ?Hlock; exec; eauto.
Qed.

Lemma close_outcome (w : World) :
  (run close w).1 =
  match next_fault CDispose w with
  | Some e => inl e
  | None => inr tt
  end.
Proof.
  unfold close. exec. unfold guarded.
  assert (next_fault CDispose (add_log "INFO" "Closing database connections..." w)
          = next_fault CDispose w) as -> by done.
  destruct (next_fault CDispose w); by exec.
Qed.

(** C7. Whatever the backend does, [upsert], [get], [delete], [import_team],
    [import_teams_from_directory], [initialize_database] and [reset_db]
    return a [Response].  [close] returns nothing, and when the disposal of
    the pool fails it raises that failure to its caller. *)
Theorem operations_return_results :
  (∀ model return_json, returns (upsert (Config:=Config) model return_json)) ∧
  (∀ model_class filters return_json order,
     returns (get (Config:=Config) model_class filters return_json order)) ∧
  (∀ model_class filters, returns (delete (Config:=Config) model_class filters)) ∧
  (∀ team_config user_id check_exists,
     returns (import_team (Config:=Config) team_config user_id check_exists)) ∧
  (∀ directory user_id check_exists,
     returns (import_teams_from_directory (Config:=Config)
                directory user_id check_exists)) ∧
  (∀ auto_upgrade force,
     returns (initialize_database (Config:=Config) auto_upgrade force)) ∧
  (∀ recreate_tables, returns (reset_db (Config:=Config) recreate_tables)) ∧
  (∀ (w : World) e, next_fault CDispose w = Some e → (run close w).1 = inl e) ∧
  (∀ w : World, next_fault CDispose w = None → (run close w).1 = inr tt).
Proof.
  repeat split;
    eauto using upsert_returns, get_returns, delete_returns, import_team_returns,
      import_teams_from_directory_returns, initialize_database_returns,
      reset_db_returns;
    intros; rewrite close_outcome; by simplify_option_eq.
Qed.

(** ** Upsert *)

Lemma setattr_all_union (target : Entity) (items : gmap string Value) :
  setattr_all target items =
  {| cls := cls target; fields := items ∪ fields target |}.
Proof.
  unfold setattr_all.
  apply (map_fold_weak_ind
           (λ r m, r = {| cls := cls target; fields := m ∪ fields target |})).
  - rewrite (left_id_L ∅ (∪)). by destruct target.
  - intros key value m r Hfresh ->. unfold setattr. simpl.
    by rewrite insert_union_l.
Qed.

(** Whatever happens, the result of [upsert] carries a payload and one of
    the two success messages. *)
Lemma upsert_result_shape (model : Entity) (return_json : bool) (w : World) :
  ∃ r w', run (upsert model return_json) w = (inr r, w')
    ∧ (∃ m, data r = DItem (if return_json then IDict (model_dump m)
                            else IModel m))
    ∧ (message r = class_name (cls model) +:+ " Updated Successfully"
       ∨ message r = class_name (cls model) +:+ " Created Successfully").
Proof.
  unfold upsert. rewrite run_bind.
  match goal with |- context [run ?p w] =>
    assert (returns p) as Hp by returns; destruct (Hp w) as (l & w' & ->)
  end.
  exec. eexists _, _. split; [done|]. simpl. split; [eauto|].
  destruct (l_existing_model l); eauto.
Qed.

(** The rows with a given identifier, when the identifier is unique. *)
Lemma filter_unique_id (n : Z) (pre post : list (gmap string Value))
    (old : gmap string Value) :
  old !! "id" = Some (VInt n) →
  (∀ row, row ∈ pre ++ post → row_id row ≠ VInt n) →
  filter (λ row, matches [("id", VInt n)] row = true) (pre ++ old :: post) = [old].
Proof.
  intros Hold Hothers.
  assert (∀ rows : list (gmap string Value),
            (∀ row, row ∈ rows → row_id row ≠ VInt n) →
            filter (λ row, matches [("id", VInt n)] row = true) rows = []) as Hnone.
  { induction rows as [|row rows IH]; intros Hrows; [done|].
    rewrite filter_cons_False.
    - apply IH. intros row' ?. apply Hrows. by right.
    - simpl. rewrite andb_true_r, bool_decide_eq_true. intros Hrow.
      apply (Hrows row); [by left|]. unfold row_id. by rewrite Hrow. }
  rewrite filter_app, filter_cons_True.
  - rewrite !Hnone; [done| |]; intros row ?; apply Hothers; set_solver.
  - simpl. by rewrite andb_true_r, bool_decide_eq_true.
Qed.

Lemma update_unique_id (n : Z) (pre post : list (gmap string Value))
    (old new : gmap string Value) (f : gmap string Value → gmap string Value) :
  old !! "id" = Some (VInt n) →
  new !! "id" = Some (VInt n) →
  (∀ row, row ∈ pre ++ post → row_id row ≠ VInt n) →
  (λ row, if bool_decide (row_id row = row_id new) then f row else row)
    <$> (pre ++ old :: post) = pre ++ f old :: post.
Proof.
  intros Hold Hnew Hothers.
  assert (row_id new = VInt n) as -> by (unfold row_id; by rewrite Hnew).
  assert (∀ rows : list (gmap string Value),
            (∀ row, row ∈ rows → row_id row ≠ VInt n) →
            (λ row, if bool_decide (row_id row = VInt n) then f row else row)
              <$> rows = rows) as Hsame.
  { induction rows as [|row rows IH]; intros Hrows; [done|].
    rewrite fmap_cons, IH by (intros ? ?; apply Hrows; by right).
    rewrite bool_decide_eq_false_2; [done|]. apply Hrows. by left. }
  rewrite fmap_app, fmap_cons, !Hsame by (intros ? ?; apply Hothers; set_solver).
  rewrite bool_decide_eq_true_2; [done|]. unfold row_id. by rewrite Hold.
Qed.

Lemma find_unique_id (n : Z) (pre post : list (gmap string Value))
    (new : gmap string Value) :
  new !! "id" = Some (VInt n) →
  (∀ row, row ∈ pre ++ post → row_id row ≠ VInt n) →
  find (λ row, bool_decide (row_id row = VInt n)) (pre ++ new :: post) = Some new.
Proof.
  intros Hnew Hothers.
  induction pre as [|row pre IH]; simpl.
  - rewrite bool_decide_eq_true_2; [done|]. unfold row_id. by rewrite Hnew.
  - rewrite bool_decide_eq_false_2 by (apply Hothers; by left).
    apply IH. intros row' ?. apply Hothers. by right.
Qed.

Lemma lookup_updated_row (row new : gmap string Value) (key : string) :
  updated_row row new !! key = written (row !! key) <$> new !! key.
Proof. unfold updated_row. rewrite map_lookup_imap. by destruct (new !! key). Qed.

Lemma written_plain (before : option Value) (v : Value) :
  (∀ c, v ≠ VJson c) → written before v = v.
Proof.
  intros Hplain. unfold written. case_bool_decide; [done|].
  destruct v; try done. by destruct (Hplain c).
Qed.

Lemma written_same (v : Value) : written (Some v) v = v.
Proof. unfold written. by rewrite bool_decide_eq_true_2. Qed.

(** C3 (amended). An upsert of an entity whose identifier is already
    persisted rewrites that row in place: every field the incoming entity
    carries takes the incoming value, the creation timestamp included (a
    payload whose value changes is held as its column stores it); the update
    timestamp is the current time; fields the incoming entity does not carry
    keep their value; the row keeps its identifier and its position, and no
    row is added. *)
Theorem upsert_overwrites_existing_row (w : World) (model : Entity)
    (return_json : bool) (n : Z) (pre post : list (gmap string Value))
    (old : gmap string Value) :
  reliable CExec w → reliable CCommit w → reliable CRefresh w →
  fields model !! "id" = Some (VInt n) →
  tables w !! class_name (cls model) = Some (pre ++ old :: post) →
  old !! "id" = Some (VInt n) →
  (∀ row, row ∈ pre ++ post → row_id row ≠ VInt n) →
  let incoming := model_dump (setattr model "updated_at" (VTime (clock w))) in
  let new := updated_row old (incoming ∪ old) in
  ∃ w',
    run (upsert model return_json) w =
      (inr {| message := class_name (cls model) +:+ " Updated Successfully";
              status := true;
              data := DItem (if return_json
                             then IDict (dump_value <$> new)
                             else IModel {| cls := cls model; fields := new |}) |},
       w')
    ∧ tables w' = <[class_name (cls model) := pre ++ new :: post]> (tables w)
    ∧ (∀ key v, fields model !! key = Some v → key ≠ "updated_at" →
         new !! key = Some (written (old !! key) (dump_value v)))
    ∧ (∀ key v, fields model !! key = Some v → key ≠ "updated_at" →
         (∀ c, dump_value v ≠ VJson c) →
         new !! key = Some (dump_value v))
    ∧ new !! "updated_at" = Some (VTime (clock w))
    ∧ (∀ key, fields model !! key = None → key ≠ "updated_at" →
         new !! key = old !! key).
Proof.
  intros Hexec Hcommit Hrefresh Hid Htable Hold Hothers incoming new.
  set (merged := incoming ∪ old).
  assert (∀ key v, fields model !! key = Some v → key ≠ "updated_at" →
            merged !! key = Some (dump_value v)) as Hcarried.
  { intros key v Hkey Hne. unfold merged, incoming, model_dump, setattr. simpl.
    apply lookup_union_Some_l. rewrite lookup_fmap, lookup_insert_ne by done.
    by rewrite Hkey. }
  assert (merged !! "id" = Some (VInt n)) as Hmerged
    by (by rewrite (Hcarried "id" (VInt n))).
  assert (new !! "id" = Some (VInt n)) as Hnew.
  { unfold new. fold merged. rewrite lookup_updated_row, Hmerged. simpl.
    by rewrite written_plain. }
  assert (row_id (fields model) = VInt n) as Hrid by (unfold row_id; by rewrite Hid).
  unfold upsert. exec. through. exec. rewrite Hrid, Htable, filter_unique_id by done.
  cbn [fmap list_fmap]. unfold hd_error. exec.
  rewrite !setattr_all_union. fold incoming. cbn [cls fields]. fold merged.
  assert (row_id merged = VInt n) as Hrmerged by (unfold row_id; by rewrite Hmerged).
  assert (row_id new = VInt n) as Hrnew by (unfold row_id; by rewrite Hnew).
  assert (row_id old = VInt n) as Hrold by (unfold row_id; by rewrite Hold).
  rewrite Hrmerged, Hrold. cbn [app].
  rewrite bool_decide_eq_true_2 by set_solver.
  through. exec. cbn [flush_one cls fields]. rewrite Htable.
  rewrite <- Hrmerged.
  rewrite (update_unique_id n pre post old merged (λ row, updated_row row merged))
    by done.
  fold new. exec.
  through. exec. unfold primary_key. cbn [fields cls]. rewrite Hrmerged.
  rewrite lookup_insert_eq. cbn [mbind option_bind].
  rewrite find_unique_id by done. exec.
  eexists. split; [reflexivity|]. split; [done|]. repeat split.
  - intros key v Hkey Hne. unfold new. fold merged.
    by rewrite lookup_updated_row, (Hcarried key v).
  - intros key v Hkey Hne Hplain. unfold new. fold merged.
    rewrite lookup_updated_row, (Hcarried key v) by done. simpl.
    by rewrite written_plain.
  - unfold new. fold merged. rewrite lookup_updated_row.
    assert (merged !! "updated_at" = Some (VTime (clock w))) as ->.
    { unfold merged, incoming, model_dump, setattr. simpl.
      apply lookup_union_Some_l. by rewrite lookup_fmap, lookup_insert_eq. }
    simpl. by rewrite written_plain.
  - intros key Hkey Hne. unfold new. fold merged. rewrite lookup_updated_row.
    assert (merged !! key = old !! key) as ->.
    { unfold merged, incoming, model_dump, setattr. simpl.
      apply lookup_union_r. rewrite lookup_fmap, lookup_insert_ne by done.
      by rewrite Hkey. }
    destruct (old !! key); simpl; [|done]. by rewrite written_same.
Qed.

(** ** Delete *)

Lemma conditions_declared model_class (filters : list (string * Value)) :
  Forall (λ cond, cond.1 ∈ class_attrs model_class) filters →
  conditions model_class filters = Ret filters.
Proof.
  induction 1 as [|[col value] rest Hcol _ IH]; simpl; [done|].
  rewrite bool_decide_eq_true_2 by done. by rewrite IH.
Qed.

Lemma run_delete_rows (rows : list Entity) (w : World) :
  run (delete_rows rows) w =
  (inr tt,
   set_session
     {| identity := identity (session w);
        pending := pending (session w) ++ (Delete <$> rows);
        assigned := assigned (session w) |} w).
Proof.
  revert w. induction rows as [|row rows IH]; intros w.
  - simpl. rewrite app_nil_r. by destruct w as [? ? ? ? ? [] ? ? ? ? ? ?].
  - cbn [delete_rows]. exec. rewrite IH. exec.
    by rewrite <- app_assoc.
Qed.

(** Flushing deletions of rows of one table, one of which a dependent row
    points to, fails on the foreign key. *)
Lemma flush_delete_referenced refs model_class (rows : list (gmap string Value))
    (row : gmap string Value) :
  row ∈ rows →
  (class_name model_class, row_id row) ∈ refs →
  ∀ (st : Store), is_Some (st.1 !! class_name model_class) →
    flush refs (Delete <$> (Build_Entity model_class <$> rows)) st =
    inl (IntegrityError "FOREIGN KEY constraint failed").
Proof.
  intros Hrow Href. induction rows as [|r rows IH]; [by apply elem_of_nil in Hrow|].
  intros [tbls given] [stored Hstored]. simpl in Hstored. cbn [fmap list_fmap flush].
  unfold flush_one. cbn [cls fields]. rewrite Hstored.
  destruct (decide ((class_name model_class, row_id r) ∈ refs)) as [Hin|Hout].
  - by rewrite bool_decide_eq_true_2.
  - rewrite bool_decide_eq_false_2 by done.
    apply IH.
    + apply elem_of_cons in Hrow as [->|?]; done.
    + simpl. rewrite lookup_insert_eq. eauto.
Qed.

(** C6. A delete that matches a row a dependent row points to is refused:
    [status=False], the integrity message (never the generic one), the
    transaction rolled back and every row still there. *)
Theorem delete_referenced_row_is_refused (w : World) model_class
    (filters : list (string * Value)) (rows : list (gmap string Value))
    (row : gmap string Value) :
  reliable CExec w → reliable CCommit w →
  Forall (λ cond, cond.1 ∈ class_attrs model_class) filters →
  tables w !! class_name model_class = Some rows →
  row ∈ rows → matches filters row = true →
  (class_name model_class, row_id row) ∈ referenced w →
  ∃ w',
    run (delete model_class filters) w =
      (inr {| message :=
                "Integrity error: The " +:+ class_name model_class
                +:+ " is linked to another entity and cannot be deleted. "
                +:+ "FOREIGN KEY constraint failed";
              status := false;
              data := DNone |}, w')
    ∧ (∀ e, "Integrity error: The " +:+ class_name model_class
            +:+ " is linked to another entity and cannot be deleted. "
            +:+ "FOREIGN KEY constraint failed"
            ≠ "Error while deleting: " +:+ exn_str e)
    ∧ tables w' = tables w
    ∧ pending (session w') = [].
Proof.
  intros Hexec Hcommit Hfilters Htable Hrow Hmatch Href.
  unfold delete. rewrite conditions_declared by done.
  exec. through. exec. rewrite Htable.
  set (found := filter (λ row, matches filters row = true) rows).
  assert (row ∈ found) as Hfound by (by apply list_elem_of_filter).
  exec. rewrite bool_decide_eq_true_2
    by (intros Hnil; apply fmap_nil_inv in Hnil; rewrite Hnil in Hfound;
        by apply elem_of_nil in Hfound).
  rewrite run_bind, run_try_finally, run_try_except, run_bind, run_delete_rows.
  exec. through. exec.
  rewrite (flush_delete_referenced _ model_class found row) by (simpl; eauto).
  exec. eexists. split; [reflexivity|]. repeat split; done.
Qed.

(** ** Directory import *)

Lemma run_import_each (configs : list Config) user_id check_exists results (w : World) :
  ∃ entries w',
    run (import_each configs user_id check_exists results) w
    = (inr (results ++ entries), w')
    ∧ length entries = length configs
    ∧ entries_of configs user_id check_exists w entries w'.
Proof.
  revert results w. induction configs as [|config rest IH]; intros results w.
  - exists [], w. simpl. by rewrite app_nil_r.
  - cbn [import_each]. rewrite run_bind.
    destruct (import_entry_returns config user_id check_exists w)
      as (entry & w1 & Hentry). rewrite Hentry.
    destruct (IH (results ++ [entry]) w1) as (entries & w' & -> & Hlen & Hrest).
    exists (entry :: entries), w'. rewrite <- app_assoc. simpl.
    split; [done|]. split; [by rewrite Hlen|]. eauto.
Qed.

Lemma import_team_payload (team_config : TeamSource) user_id check_exists
    (w w' : World) (r : Response) :
  run (import_team team_config user_id check_exists) w = (inr r, w') →
  data r = DNone ∨ ∃ d, data r = DItem (IDict d).
Proof.
  unfold import_team. rewrite run_try_except, run_bind.
  destruct (run _ w) as [[e|config] w1]; [exec; intros [= <- _]; by left|].
  rewrite run_bind.
  destruct (run _ w1) as [[e|[existing|]] w2]; [exec; intros [= <- _]; by left| |].
  - rewrite run_bind. destruct (item_getattr existing "id") as [e|id]; exec;
      intros [= <- _]; eauto.
  - exec.
    destruct (upsert_result_shape (Team user_id config (clock w2)) true w2)
      as (r' & w3 & -> & [m Hm] & _).
    intros [= <- _]. eauto.
Qed.

(** What one configuration leaves in the result list: one entry, failed
    exactly when the import of that configuration failed or returned no
    payload. *)
Lemma import_entry_outcome (config : Config) user_id check_exists (w : World) :
  ∃ r w1 entry w2,
    run (import_team (Inline config) user_id check_exists) w = (inr r, w1)
    ∧ run (import_entry config user_id check_exists) w = (inr entry, w2)
    ∧ tables w2 = tables w1
    ∧ entry !! "status" = Some (VBool (status r && truthy (data r)))
    ∧ (status r && truthy (data r) = false → entry !! "id" = Some VNone).
Proof.
  destruct (import_team_returns (Inline config) user_id check_exists w)
    as (r & w1 & Hrun).
  exists r, w1. unfold import_entry. rewrite run_try_except, run_bind, Hrun.
  destruct (import_team_payload _ _ _ _ _ _ Hrun) as [Hdata|[d Hdata]];
    rewrite Hdata; cbn [truthy negb]; [exec|].
  - eexists _, _. rewrite andb_false_r. repeat split; done.
  - destruct (bool_decide (d = ∅)); cbn [negb]; exec.
    + eexists _, _. rewrite andb_false_r. repeat split; done.
    + rewrite andb_true_r. destruct (status r); exec;
        eexists _, _; repeat split; done.
Qed.


(** C5 (amended). When the loader lists the directory, the aggregate result
    is a success whose payload has exactly one entry per configuration, in
    order, each produced by its own import whatever became of the others; an
    import that fails or returns no payload leaves a failed entry without
    identifier.  When the loader itself raises, the aggregate result is a
    failure that carries the error and no payload. *)
Theorem import_directory_isolates_item_failures (directory user_id : string)
    (check_exists : bool) (w : World) :
  (∀ configs,
     load_from_directory (team_manager w) directory = inr configs →
     ∃ entries w',
       run (import_teams_from_directory directory user_id check_exists) w =
         (inr {| message := "Directory import complete";
                 status := true;
                 data := DList (IDict <$> entries) |}, w')
       ∧ length entries = length configs
       ∧ entries_of configs user_id check_exists w entries w') ∧
  (∀ (config : Config) (w0 : World),
     ∃ r w1 entry w2,
       run (import_team (Inline config) user_id check_exists) w0 = (inr r, w1)
       ∧ run (import_entry config user_id check_exists) w0 = (inr entry, w2)
       ∧ tables w2 = tables w1
       ∧ entry !! "status" = Some (VBool (status r && truthy (data r)))
       ∧ (status r && truthy (data r) = false → entry !! "id" = Some VNone)) ∧
  (∀ e,
     load_from_directory (team_manager w) directory = inl e →
     ∃ w',
       run (import_teams_from_directory directory user_id check_exists) w =
         (inr {| message := exn_str e; status := false; data := DNone |}, w')).
Proof.
  split; [|split].
  - intros configs Hload. unfold import_teams_from_directory.
    exec. rewrite Hload. exec. rewrite run_try_except, run_bind.
    destruct (run_import_each configs user_id check_exists [] w)
      as (entries & w' & -> & Hlen & Hentries).
    exec. eauto.
  - intros config w0. apply import_entry_outcome.
  - intros e Hload. unfold import_teams_from_directory.
    exec. rewrite Hload. exec. eauto.
Qed.

(** ** Import of a configuration that is already there *)



















(** ** Further properties of the lifecycle coordinator *)

Lemma guarded_fault {X} c (w : World) (ok : World → (Exn + X) * World) e :
  next_fault c w = Some e → guarded c w ok = (inl e, consume_fault c w).
Proof. unfold guarded. by intros ->. Qed.

Lemma tables_consume_fault c (w : World) : tables (consume_fault c w) = tables w.
Proof. unfold consume_fault. by destruct (faults w c). Qed.

Lemma executed_consume_fault c (w : World) :
  executed (consume_fault c w) = executed w.
Proof. unfold consume_fault. by destruct (faults w c). Qed.

Lemma log_consume_fault c (w : World) : log (consume_fault c w) = log w.
Proof. unfold consume_fault. by destruct (faults w c). Qed.

Ltac fails e :=
  rewrite (guarded_fault _ _ _ e) by assumption.

(** X1. A [reset_db] that finds the gate held returns the contention result
    at once: the gate stays held, no table and no session is touched, and the
    only trace is a warning in the log. *)
Theorem reset_db_contention (recreate_tables : bool) (w : World) :
  init_lock w = true →
  run (reset_db recreate_tables) w =
  (inr {| message := "Database reset already in progress";
          status := false; data := DNone |},
   add_log "WARNING" "Database reset already in progress" w).
Proof. intros Hheld. unfold reset_db. exec. rewrite Hheld. by exec. Qed.

(** X3. When [drop_all] raises, [reset_db] reports the failure with the
    error's text, leaves every table as it was, ends with the gate free, and
    does not call [initialize_database]; on an embedded database the
    statement that disabled foreign keys has been sent and the one that
    enables them again has not. *)
Theorem reset_db_drop_failure (recreate_tables : bool) (w : World) (e : Exn) :
  init_lock w = false →
  reliable CDispose w → reliable CExecute w →
  next_fault CDropAll w = Some e →
  ∃ w',
    run (reset_db recreate_tables) w =
      (inr {| message := "Error while resetting database: " +:+ exn_str e;
              status := false; data := DNone |}, w')
    ∧ tables w' = tables w
    ∧ init_lock w' = false
    ∧ executed w' =
      executed w ++ (if str_in "sqlite" (engine_url (engine w))
                     then ["PRAGMA foreign_keys=OFF"] else [])
    ∧ log w' = log w ++ [("ERROR", "Error while resetting database: " +:+ exn_str e)].
Proof.
  intros Hfree Hdispose Hexecute Hdrop. unfold reset_db, drop_all_tables.
  exec. rewrite Hfree. exec. through. exec.
  destruct (str_in "sqlite" (engine_url (engine w))) eqn:Hurl; exec.
  - through. exec. fails e. exec.
    repeat (rewrite init_lock_consume_fault; exec).
    eexists. split; [reflexivity|].
    cbn [tables init_lock executed log set_session set_init_lock add_log
         add_executed set_store].
    rewrite tables_consume_fault, executed_consume_fault, log_consume_fault.
    done.
  - fails e. exec.
    repeat (rewrite init_lock_consume_fault; exec).
    eexists. split; [reflexivity|].
    cbn [tables init_lock executed log set_session set_init_lock add_log
         add_executed set_store].
    rewrite tables_consume_fault, executed_consume_fault, log_consume_fault.
    by rewrite app_nil_r.
Qed.

Lemma lookup_drop_tables (tbls : gmap string (list (gmap string Value)))
    (names : list string) (name : string) :
  foldr base.delete tbls names !! name =
  if bool_decide (name ∈ names) then None else tbls !! name.
Proof.
  induction names as [|n names IH]; cbn [foldr].
  - case_bool_decide as Hin; [by apply elem_of_nil in Hin | done].
  - destruct (decide (n = name)) as [->|Hne].
    + rewrite lookup_delete_eq.
      by rewrite bool_decide_eq_true_2 by (by left).
    + rewrite lookup_delete_ne, IH by done.
      repeat case_bool_decide; try done; exfalso;
        first [ match goal with H : name ∈ n :: names |- _ =>
                  apply elem_of_cons in H as [?|?] end; congruence
              | eauto using list_elem_of_further ].
Qed.

Lemma lookup_create_tables (tbls : gmap string (list (gmap string Value)))
    (names : list string) (name : string) :
  foldr (λ name t, match t !! name with
                   | Some _ => t
                   | None => <[name := []]> t
                   end) tbls names !! name =
  match tbls !! name with
  | Some rows => Some rows
  | None => if bool_decide (name ∈ names) then Some [] else None
  end.
Proof.
  induction names as [|n names IH]; cbn [foldr].
  - destruct (tbls !! name); [done|].
    case_bool_decide as Hin; [by apply elem_of_nil in Hin | done].
  - set (t := foldr _ tbls names) in *.
    destruct (decide (n = name)) as [->|Hne].
    + destruct (t !! name) as [rows|] eqn:Ht.
      * rewrite Ht. rewrite IH in Ht. destruct (tbls !! name); [done|].
        rewrite (bool_decide_eq_true_2 (name ∈ name :: names)) by (by left).
        by case_bool_decide.
      * rewrite lookup_insert_eq. rewrite IH in Ht.
        destruct (tbls !! name); [done|].
        by rewrite bool_decide_eq_true_2 by (by left).
    + assert (match t !! n with Some _ => t | None => <[n:=[]]> t end !! name
              = t !! name) as ->.
      { destruct (t !! n); [done|]. by rewrite lookup_insert_ne. }
      rewrite IH. destruct (tbls !! name); [done|].
      repeat case_bool_decide; try done; exfalso;
        first [ match goal with H : name ∈ n :: names |- _ =>
                  apply elem_of_cons in H as [?|?] end; congruence
              | eauto using list_elem_of_further ].
Qed.

(** ** Stepping through a method one operation at a time *)

Lemma bind_ret_l {A B} (a : A) (f : A → Prog B) : bind (Ret a) f = f a.
Proof. done. Qed.

(** The program under [run] is brought to head normal form only, so that
    what is left of it stays as it was written. *)
Ltac head_step :=
  match goal with
  | |- context [run ?p ?w] =>
      let p' := eval hnf in p in
      progress (change (run p w) with (run p' w))
  end.

Ltac world_step :=
  cbn [run handle fst snd negb
       init_lock engine metadata tables referenced session schema_manager
       team_manager clock faults executed log
       set_init_lock set_store set_session set_faults add_executed add_log
       flush identity pending assigned new_session
       q_class q_where q_order run_query l_status l_existing_model l_model app].

Ltac step := first [head_step | rewrite bind_ret_l; cbn beta]; world_step.

Ltac steps := repeat first [step | through; world_step].

Tactic Notation "steps" "with" tactic3(tac) :=
  repeat first [step | through; world_step | tac; world_step].

(** X4. [reset_db(recreate_tables=False)] whose drop goes through reports
    that the tables were dropped, and that is all it does to the schema:
    every table declared in the metadata is gone, none is created again, and
    tables the metadata does not declare are left alone. *)
Theorem reset_db_drop_only (w : World) :
  init_lock w = false →
  reliable CDispose w → reliable CExecute w →
  reliable CDropAll w → reliable CCommit w →
  ∃ w',
    run (reset_db false) w =
      (inr {| message := "Database tables dropped successfully";
              status := true; data := DNone |}, w')
    ∧ init_lock w' = false
    ∧ ∀ name, tables w' !! name =
              if bool_decide (name ∈ metadata w) then None else tables w !! name.
Proof.
  intros Hfree Hdispose Hexecute Hdrop Hcommit.
  step. rewrite Hfree.
  destruct (str_in "sqlite" (engine_url (engine w))) eqn:Hurl;
    steps with (rewrite Hurl);
    (eexists; split; [reflexivity|]; split; [done|]);
    intros name; cbn [tables set_session set_init_lock set_store add_log add_executed];
    apply lookup_drop_tables.
Qed.

Lemma drop_tables_all (tbls : gmap string (list (gmap string Value)))
    (names : list string) :
  (∀ name, is_Some (tbls !! name) → name ∈ names) →
  foldr base.delete tbls names = ∅.
Proof.
  intros Hdeclared. apply map_eq. intros name.
  rewrite lookup_drop_tables, lookup_empty.
  case_bool_decide as Hin; [done|].
  destruct (tbls !! name) eqn:Hname; [|done].
  exfalso. apply Hin, Hdeclared. by rewrite Hname.
Qed.

(** X5. On a database without tables [initialize_database] creates every
    table the metadata declares, empty, and then reports what the schema
    manager answered to [initialize_migrations(force)]: the tables are
    created whether or not that step succeeds, and [auto_upgrade] plays no
    part. *)
Theorem initialize_database_creates_schema (auto_upgrade force : bool) (w : World) :
  init_lock w = false →
  reliable CInspect w → reliable CCreateAll w → reliable CInitializeMigrations w →
  tables w = ∅ →
  ∃ w',
    run (initialize_database auto_upgrade force) w =
      (inr {| message := if initialize_migrations (schema_manager w) force
                         then "Database initialized successfully"
                         else "Failed to initialize migrations";
              status := initialize_migrations (schema_manager w) force;
              data := DNone |}, w')
    ∧ init_lock w' = false
    ∧ ∀ name, tables w' !! name =
              if bool_decide (name ∈ metadata w) then Some [] else None.
Proof.
  intros Hfree Hinspect Hcreate Hmigrate Hempty.
  step. rewrite Hfree.
  steps with (rewrite Hempty, map_to_list_empty; cbn [fmap list_fmap];
              rewrite bool_decide_eq_true_2 by done).
  destruct (initialize_migrations (schema_manager w) force); steps;
    (eexists; split; [reflexivity|]; split; [done|]);
    intros name; cbn [tables set_session set_init_lock set_store add_log];
    by rewrite lookup_create_tables, Hempty, lookup_empty.
Qed.

Lemma table_names_nonempty (tbls : gmap string (list (gmap string Value))) :
  tbls ≠ ∅ → fst <$> map_to_list tbls ≠ [].
Proof.
  intros Hne Hnil. apply Hne. apply fmap_nil_inv in Hnil.
  by apply map_to_list_empty_iff.
Qed.

(** X6. On a database that has tables, with [auto_upgrade=False] and a
    schema manager that sees no drift, [initialize_database] answers that the
    database is ready and changes no table; the gate is free again. *)
Theorem initialize_database_ready (force : bool) (w : World) :
  init_lock w = false →
  reliable CInspect w → reliable CCheckSchemaStatus w →
  tables w ≠ ∅ →
  check_schema_status (schema_manager w) = false →
  ∃ w',
    run (initialize_database false force) w =
      (inr {| message := "Database is ready"; status := true; data := DNone |}, w')
    ∧ init_lock w' = false
    ∧ tables w' = tables w.
Proof.
  intros Hfree Hinspect Hcheck Htables Hdrift.
  step. rewrite Hfree.
  steps with (first [ rewrite bool_decide_eq_false_2 by by apply table_names_nonempty
                    | rewrite Hdrift ]).
  eauto.
Qed.

(** X7. With [auto_upgrade=True] on a database that has tables the drift
    check is never made: whatever [check_schema_status] would answer or
    raise, the result is the answer of [ensure_schema_up_to_date], and no
    table is touched by the manager itself. *)
Theorem initialize_database_auto_upgrade (force : bool) (w : World) :
  init_lock w = false →
  reliable CInspect w → reliable CEnsureSchemaUpToDate w →
  tables w ≠ ∅ →
  ∃ w',
    run (initialize_database true force) w =
      (inr {| message := if ensure_schema_up_to_date (schema_manager w)
                         then "Database schema is up to date"
                         else "Database upgrade failed";
              status := ensure_schema_up_to_date (schema_manager w);
              data := DNone |}, w')
    ∧ init_lock w' = false
    ∧ tables w' = tables w
    ∧ faults w' CCheckSchemaStatus = faults w CCheckSchemaStatus.
Proof.
  intros Hfree Hinspect Hensure Htables.
  step. rewrite Hfree.
  steps with (rewrite bool_decide_eq_false_2 by by apply table_names_nonempty).
  destruct (ensure_schema_up_to_date (schema_manager w)); steps; eauto.
Qed.

(** X8. When the inspection of the database raises, [initialize_database]
    returns a failure whose message carries the error's text, changes no
    table and leaves the gate free. *)
Theorem initialize_database_inspection_failure (auto_upgrade force : bool)
    (w : World) (e : Exn) :
  init_lock w = false →
  next_fault CInspect w = Some e →
  ∃ w',
    run (initialize_database auto_upgrade force) w =
      (inr {| message := "Database initialization failed: " +:+ exn_str e;
              status := false; data := DNone |}, w')
    ∧ init_lock w' = false
    ∧ tables w' = tables w.
Proof.
  intros Hfree Hinspect.
  step. rewrite Hfree.
  steps with (first [fails e | rewrite init_lock_consume_fault]).
  eexists. split; [reflexivity|]. split; [done|].
  cbn [tables set_init_lock add_log]. by rewrite tables_consume_fault.
Qed.

(** ** Further properties of the façade *)

(** *** Ordering *)

Lemma insert_sorted_perm desc (row : gmap string Value) rows :
  insert_sorted desc row rows ≡ₚ row :: rows.
Proof.
  induction rows as [|r rows IH]; simpl; [done|].
  case_match; [done|]. rewrite IH. apply Permutation_swap.
Qed.

Lemma order_by_perm desc (rows : list (gmap string Value)) :
  order_by desc rows ≡ₚ rows.
Proof.
  unfold order_by. induction rows as [|r rows IH]; simpl; [done|].
  by rewrite insert_sorted_perm, IH.
Qed.

Lemma insert_sorted_sorted desc (row : gmap string Value) rows :
  StronglySorted (in_order desc) rows →
  StronglySorted (in_order desc) (insert_sorted desc row rows).
Proof.
  induction 1 as [|r rows Hsorted IH Hr]; simpl.
  - repeat constructor.
  - case_match eqn:Hcmp.
    + constructor; [by constructor|].
      assert (in_order desc row r) as Hrow.
      { unfold in_order. destruct desc; lia. }
      constructor; [done|].
      eapply Forall_impl; [exact Hr|]. intros x Hx.
      unfold in_order in *. destruct desc; lia.
    + constructor; [done|].
      rewrite insert_sorted_perm. constructor; [|done].
      unfold in_order. destruct desc; lia.
Qed.

Lemma order_by_sorted desc (rows : list (gmap string Value)) :
  StronglySorted (in_order desc) (order_by desc rows).
Proof.
  unfold order_by. induction rows as [|r rows IH]; simpl; [constructor|].
  by apply insert_sorted_sorted.
Qed.

(** *** Get *)

Lemma matches_satisfies (filters : list (string * Value)) (row : gmap string Value) :
  matches filters row = true ↔ satisfies filters row.
Proof.
  unfold matches, satisfies. rewrite forallb_forall, Forall_forall.
  split; intros Hall [col v] Hin; specialize (Hall (col, v)); simpl in *.
  - eapply bool_decide_eq_true_1, Hall. by apply list_elem_of_In.
  - apply bool_decide_eq_true_2, Hall. by apply list_elem_of_In.
Qed.

(** X9. On a table that exists, with a well-formed filter, [get] succeeds
    with exactly the rows that satisfy every condition of the filter, each
    once, ordered by creation timestamp in the direction asked for, and
    changes no table. *)
Theorem get_returns_matching_rows_in_order (w : World) model_class
    (filters : list (string * Value)) (return_json : bool) (desc : bool)
    (rows : list (gmap string Value)) :
  reliable CExec w →
  Forall (λ cond, cond.1 ∈ class_attrs model_class) filters →
  "created_at" ∈ class_attrs model_class →
  tables w !! class_name model_class = Some rows →
  ∃ found w',
    run (get model_class filters return_json (if desc then "desc" else "asc")) w =
      (inr {| message := class_name model_class +:+ " Retrieved Successfully";
              status := true;
              data := DList (rendered model_class return_json <$> found) |}, w')
    ∧ found ≡ₚ filter (satisfies filters) rows
    ∧ StronglySorted (in_order desc) found
    ∧ tables w' = tables w.
Proof.
  intros Hexec Hfilters Hcreated Htable.
  unfold get. rewrite conditions_declared by done.
  rewrite bool_decide_eq_true_2 by done.
  exists (order_by desc (filter (λ row, matches filters row = true) rows)).
  destruct desc; cbn [andb negb String.eqb Ascii.eqb Bool.eqb order_by_clause];
    exec; through; exec; rewrite Htable; exec;
    (eexists; split;
     [ unfold rendered, model_dump_json; rewrite <- list_fmap_compose;
       destruct return_json; reflexivity |]);
    (split; [|split; [apply order_by_sorted | done]]);
    rewrite order_by_perm;
    (erewrite list_filter_iff; [done|]); intros row; apply matches_satisfies.
Qed.

Lemma conditions_undeclared model_class (filters : list (string * Value)) :
  ¬ Forall (λ cond, cond.1 ∈ class_attrs model_class) filters →
  ∃ col, conditions model_class filters = Throw (AttributeError col)
         ∧ col ∈ filters.*1
         ∧ col ∉ class_attrs model_class.
Proof.
  induction filters as [|[col value] rest IH]; intros Hbad.
  - by destruct Hbad.
  - simpl. case_bool_decide as Hcol.
    + destruct IH as (col' & -> & Hin & Hout).
      * intros Hrest. apply Hbad. by constructor.
      * exists col'. simpl. split; [done|]. split; [by right|done].
    + exists col. split; [done|]. split; [by left|done].
Qed.

(** X10. A [get] whose filter names a column the class does not declare is
    answered with a failure and an empty list.  No table changes, and no
    call that could fail is sent to the backend: the failures it has in
    store are all still there. *)
Theorem get_rejects_undeclared_column (w : World) model_class
    (filters : list (string * Value)) (return_json : bool) (order : string) :
  ¬ Forall (λ cond, cond.1 ∈ class_attrs model_class) filters →
  ∃ w',
    run (get model_class filters return_json order) w =
      (inr {| message := "Error while fetching " +:+ class_name model_class;
              status := false; data := DList [] |}, w')
    ∧ tables w' = tables w
    ∧ faults w' = faults w.
Proof.
  intros Hfilters. unfold get.
  destruct (conditions_undeclared _ _ Hfilters) as (col & -> & _). exec. eauto.
Qed.

(** X11. A [get] on a class whose table does not exist is answered with a
    failure and an empty list, not with an exception. *)
Theorem get_missing_table (w : World) model_class
    (filters : list (string * Value)) (return_json : bool) :
  reliable CExec w →
  Forall (λ cond, cond.1 ∈ class_attrs model_class) filters →
  tables w !! class_name model_class = None →
  ∃ w',
    run (get model_class filters return_json "desc") w =
      (inr {| message := "Error while fetching " +:+ class_name model_class;
              status := false; data := DList [] |}, w')
    ∧ tables w' = tables w.
Proof.
  intros Hexec Hfilters Htable. unfold get. rewrite conditions_declared by done.
  destruct (bool_decide ("created_at" ∈ class_attrs model_class));
    cbn [andb negb String.eqb Ascii.eqb Bool.eqb order_by_clause];
    exec; through; exec; rewrite Htable; exec; eauto.
Qed.

(** *** Delete *)

(** X12. A [delete] whose filter matches no row is a success that says so
    and changes nothing. *)
Theorem delete_without_match (w : World) model_class
    (filters : list (string * Value)) (rows : list (gmap string Value)) :
  reliable CExec w →
  Forall (λ cond, cond.1 ∈ class_attrs model_class) filters →
  tables w !! class_name model_class = Some rows →
  Forall (λ row, ¬ satisfies filters row) rows →
  ∃ w',
    run (delete model_class filters) w =
      (inr {| message := "Row not found"; status := true; data := DNone |}, w')
    ∧ tables w' = tables w.
Proof.
  intros Hexec Hfilters Htable Hnone. unfold delete.
  rewrite conditions_declared by done. exec. through. exec. rewrite Htable.
  assert (filter (λ row, matches filters row = true) rows = []) as ->.
  { clear Htable. induction Hnone as [|row rows Hrow _ IH]; [done|].
    rewrite filter_cons_False; [done|]. by rewrite matches_satisfies. }
  exec. rewrite bool_decide_eq_false_2 by (by intros []). exec. eauto.
Qed.

Lemma filter_ext_elem {A} (P Q : A → Prop) `{∀ x, Decision (P x)}
    `{∀ x, Decision (Q x)} (l : list A) :
  (∀ x, x ∈ l → P x ↔ Q x) → filter P l = filter Q l.
Proof.
  induction l as [|x l IH]; intros Hext; [done|].
  assert (filter P l = filter Q l) as Hl
    by (apply IH; intros y ?; apply Hext; by right).
  destruct (decide (P x)) as [HP|HP].
  - rewrite !filter_cons_True; [by rewrite Hl| |done]. apply Hext; [by left|done].
  - rewrite !filter_cons_False; [done| |done]. rewrite <- Hext by (by left). done.
Qed.

Lemma filter_all {A} (P : A → Prop) `{∀ x, Decision (P x)} (l : list A) :
  (∀ x, x ∈ l → P x) → filter P l = l.
Proof.
  induction l as [|x l IH]; intros HP; [done|].
  rewrite filter_cons_True by (apply HP; by left).
  f_equal. apply IH. intros y ?. apply HP. by right.
Qed.

(** Flushing deletions of rows of one table, none of which a dependent row
    points to, removes the rows that carry their identifiers. *)
Lemma flush_delete_all refs model_class (doomed rows : list (gmap string Value))
    (tbls : gmap string (list (gmap string Value))) (given : list (Entity * Value)) :
  tbls !! class_name model_class = Some rows →
  Forall (λ row, (class_name model_class, row_id row) ∉ refs) doomed →
  flush refs (Delete <$> (Build_Entity model_class <$> doomed)) (tbls, given) =
  inr (<[class_name model_class :=
           filter (λ row, row_id row ∉ row_id <$> doomed) rows]> tbls, given).
Proof.
  intros Htable Hfree. revert tbls rows Htable.
  induction Hfree as [|d doomed Hd _ IH]; intros tbls rows Htable.
  - cbn [fmap list_fmap flush]. f_equal. f_equal.
    rewrite filter_all by (intros row _; apply not_elem_of_nil).
    by rewrite insert_id.
  - cbn [fmap list_fmap flush]. unfold flush_one. cbn [cls fields].
    rewrite Htable. rewrite bool_decide_eq_false_2 by done.
    rewrite (IH _ (filter (λ row, row_id row ≠ row_id d) rows))
      by apply lookup_insert_eq.
    rewrite insert_insert_eq. f_equal. f_equal. f_equal.
    rewrite list_filter_filter. apply filter_ext_elem.
    intros row _. rewrite elem_of_cons. tauto.
Qed.

Lemma NoDup_fmap_eq {A B} (f : A → B) (l : list A) (x y : A) :
  NoDup (f <$> l) → x ∈ l → y ∈ l → f x = f y → x = y.
Proof.
  induction l as [|a l IH]; intros Hnodup Hx Hy Hf; [by apply elem_of_nil in Hx|].
  rewrite fmap_cons in Hnodup. apply NoDup_cons in Hnodup as [Ha Hnodup].
  apply elem_of_cons in Hx as [->|Hx], Hy as [->|Hy]; [done| | |by apply IH].
  - exfalso. apply Ha. rewrite Hf. by apply list_elem_of_fmap_2.
  - exfalso. apply Ha. rewrite <- Hf. by apply list_elem_of_fmap_2.
Qed.

(** X13. On a table whose identifiers are unique, a [delete] that matches at
    least one row, none of them pointed to by a dependent row, removes
    exactly the rows that satisfy the filter and keeps all the others, in
    their order. *)
Theorem delete_removes_matching_rows (w : World) model_class
    (filters : list (string * Value)) (rows : list (gmap string Value)) :
  reliable CExec w → reliable CCommit w →
  Forall (λ cond, cond.1 ∈ class_attrs model_class) filters →
  tables w !! class_name model_class = Some rows →
  NoDup (row_id <$> rows) →
  Exists (satisfies filters) rows →
  (∀ row, row ∈ rows → satisfies filters row →
          (class_name model_class, row_id row) ∉ referenced w) →
  ∃ w',
    run (delete model_class filters) w =
      (inr {| message := class_name model_class +:+ " Deleted Successfully";
              status := true; data := DNone |}, w')
    ∧ tables w' =
      <[class_name model_class := filter (λ row, ¬ satisfies filters row) rows]>
        (tables w).
Proof.
  intros Hexec Hcommit Hfilters Htable Hnodup Hsome Hfree.
  unfold delete. rewrite conditions_declared by done.
  exec. through. exec. rewrite Htable.
  set (found := filter (λ row, matches filters row = true) rows).
  assert (found ≠ []) as Hfound.
  { apply Exists_exists in Hsome as (row & Hrow & Hsat). intros Hnil.
    assert (row ∈ found) as Hin
      by (apply list_elem_of_filter; by rewrite matches_satisfies).
    rewrite Hnil in Hin. by apply elem_of_nil in Hin. }
  exec. rewrite bool_decide_eq_true_2
    by (intros Hnil; by apply fmap_nil_inv in Hnil).
  rewrite run_bind, run_try_finally, run_try_except, run_bind, run_delete_rows.
  exec. through. exec.
  rewrite (flush_delete_all _ model_class found rows); [|done|].
  - exec. eexists. split; [reflexivity|].
    cbn [tables set_session set_store]. f_equal.
    apply filter_ext_elem. intros row Hrow.
    rewrite <- matches_satisfies. split.
    + intros Hid Hmatch. apply Hid. apply list_elem_of_fmap_2.
      by apply list_elem_of_filter.
    + intros Hno (row' & Hid & Hrow')%list_elem_of_fmap.
      apply list_elem_of_filter in Hrow' as [Hmatch Hrow'].
      by rewrite (NoDup_fmap_eq row_id rows row row') in Hno.
  - apply Forall_forall. intros row [Hmatch Hrow]%list_elem_of_filter.
    apply Hfree; [done|]. by apply matches_satisfies.
Qed.

(** X14. A [delete] whose filter names a column the class does not declare
    is answered with the generic failure naming that column; nothing is
    queried and nothing is deleted. *)
Theorem delete_rejects_undeclared_column (w : World) model_class
    (filters : list (string * Value)) :
  ¬ Forall (λ cond, cond.1 ∈ class_attrs model_class) filters →
  ∃ col w',
    col ∈ filters.*1
    ∧ (col ∉ class_attrs model_class)
    ∧ run (delete model_class filters) w =
      (inr {| message := "Error while deleting: " +:+ col;
              status := false; data := DNone |}, w')
    ∧ tables w' = tables w
    ∧ faults w' = faults w.
Proof.
  intros Hfilters. unfold delete.
  destruct (conditions_undeclared _ _ Hfilters) as (col & -> & Hin & Hout).
  exec. eexists col, _. split; [done|]. split; [done|]. split; [reflexivity|]. done.
Qed.

End Properties.

(** ** Sample runs *)

(** C2 (what the code does). A commit that fails during an insert is rolled
    back and reported with [status=False], yet the message still announces a
    success and the payload is the dump of the model. *)
Theorem upsert_failure_keeps_success_message_and_payload :
  let w := with_faults (fault_at CCommit (Error "database is locked")) sample_world in
  let model := Team "alice" "planner" 1000 in
  (run (upsert model true) w).1 =
    inr {| message := "Team Created Successfully";
           status := false;
           data := DItem (IDict (model_dump model)) |}
  ∧ tables (run (upsert model true) w).2 = tables w
  ∧ pending (session (run (upsert model true) w).2) = [].
Proof. vm_compute. done. Qed.

(** C3 (counterexample). The persisted team was created at 10; the incoming
    team with the same identifier says 99; after the upsert the row says
    99. *)
Lemma upsert_overwrites_creation_timestamp :
  ¬ preserves_creation_timestamp world_with_team incoming_team.
Proof.
  intros Hp.
  specialize (Hp [alice_team]
                 [model_dump (setattr incoming_team "updated_at" (VTime 1000))
                  ∪ alice_team]
                 alice_team
                 (model_dump (setattr incoming_team "updated_at" (VTime 1000))
                  ∪ alice_team)).
  assert (Some (VTime 99) = Some (VTime 10) :> option (Value (Config := string)))
    as Habs; [|discriminate].
  apply Hp; try (vm_compute; reflexivity); by left.
Qed.

(** C3 (witness). *)
Lemma upsert_overwrites_existing_row_witness :
  ∃ w',
    run (upsert incoming_team true) world_with_team =
      (inr {| message := "Team Updated Successfully";
              status := true;
              data := DItem (IDict (dump_value <$>
                        (model_dump (setattr incoming_team "updated_at" (VTime 1000))
                         ∪ alice_team))) |}, w')
    ∧ tables w' =
      <["Team" := [model_dump (setattr incoming_team "updated_at" (VTime 1000))
                   ∪ alice_team]]> (tables world_with_team).
Proof.
  destruct (upsert_overwrites_existing_row world_with_team incoming_team true 1
              [] [] alice_team) as (w' & Hrun & Htables & _).
  - reflexivity.
  - reflexivity.
  - reflexivity.
  - reflexivity.
  - reflexivity.
  - reflexivity.
  - intros row Hrow. simpl in Hrow. by apply elem_of_nil in Hrow.
  - exists w'. split; [exact Hrun | exact Htables].
Defined.

(** C1 (witness). *)
Lemma initialize_database_gate_witness :
  run (initialize_database false true) (set_init_lock true sample_world) =
    (inr {| message := "Database initialization already in progress";
            status := false; data := DNone |}, set_init_lock true sample_world)
  ∧ ∃ r w', run (initialize_database false true) sample_world = (inr r, w')
            ∧ init_lock w' = false.
Proof.
  split.
  - apply (proj1 (initialize_database_gate false true
                    (set_init_lock true sample_world))).
    reflexivity.
  - apply (proj2 (initialize_database_gate false true sample_world)).
    reflexivity.
Defined.

(** C10 (witness). *)
Lemma reset_db_discards_initialize_result_witness :
  ∃ w', run (reset_db true) world_with_failing_migrations =
        (inr {| message := "Database reset successfully";
                status := true; data := DNone |}, w').
Proof.
  apply reset_db_discards_initialize_result; reflexivity.
Defined.

(** In that world the nested call did fail: the steps [reset_db] takes up to
    and including [initialize_database] end on its failure result. *)
Example reset_db_nested_initialize_failed :
  (run (bind drop_all_tables (λ _, initialize_database false true))
     (set_init_lock true world_with_failing_migrations)).1 =
  inr {| message := "Failed to initialize migrations";
         status := false; data := DNone |}.
Proof. vm_compute. reflexivity. Qed.

(** C6 (witness). *)
Lemma delete_referenced_row_is_refused_witness :
  ∃ w',
    run (delete Team_class [("user_id", VStr "alice")]) world_with_team =
      (inr {| message :=
                "Integrity error: The Team is linked to another entity and cannot be deleted. FOREIGN KEY constraint failed";
              status := false;
              data := DNone |}, w')
    ∧ tables w' = tables world_with_team.
Proof.
  destruct (delete_referenced_row_is_refused world_with_team Team_class
              [("user_id", VStr "alice")] [alice_team] alice_team)
    as (w' & Hrun & _ & Htables & _).
  - reflexivity.
  - reflexivity.
  - repeat constructor.
  - reflexivity.
  - by left.
  - reflexivity.
  - by left.
  - exists w'. split; [exact Hrun | exact Htables].
Defined.

(** C7 (counterexample). A disposal that fails reaches the caller of [close]
    as an exception. *)
Lemma close_raises_disposal_failure :
  (run close (with_faults (fault_at CDispose (Error "pool is gone")) sample_world)).1
  = inl (Error "pool is gone").
Proof. vm_compute. reflexivity. Qed.

(** C7 (witness). *)
Lemma operations_return_results_witness :
  (∃ r w', run (upsert incoming_team true)
             (with_faults (fault_at CExec (Error "database is locked")) world_with_team)
           = (inr r, w'))
  ∧ (run close (with_faults (fault_at CDispose (Error "pool is gone")) sample_world)).1
    = inl (Error "pool is gone")
  ∧ (run close sample_world).1 = inr tt.
Proof.
  pose proof (@operations_return_results string _ _) as (Hupsert & _ & _ & _ & _ & _ & _ & Hraise & Hok).
  split; [apply Hupsert|]. split.
  - apply Hraise. reflexivity.
  - apply Hok. reflexivity.
Defined.

(** C5 (counterexample). A directory the loader cannot list gives an
    aggregate failure. *)
Lemma import_directory_fails_with_loader :
  (run (import_teams_from_directory "missing" "alice" false) sample_world).1
  = inr {| message := "no such directory: missing";
           status := false; data := DNone |}.
Proof. vm_compute. reflexivity. Qed.

(** C5 (witness). *)
Lemma import_directory_isolates_item_failures_witness :
  (∃ entries w',
     run (import_teams_from_directory "teams" "alice" true) sample_world =
       (inr {| message := "Directory import complete";
               status := true;
               data := DList (IDict <$> entries) |}, w')
     ∧ length entries = 2%nat)
  ∧ (∃ w',
       run (import_teams_from_directory "missing" "alice" true) sample_world =
         (inr {| message := "no such directory: missing";
                 status := false; data := DNone |}, w')).
Proof.
  pose proof (import_directory_isolates_item_failures "teams" "alice" true
                sample_world) as (Hlisted & _ & _).
  pose proof (import_directory_isolates_item_failures "missing" "alice" true
                sample_world) as (_ & _ & Hfailed).
  split.
  - destruct (Hlisted ["planner"; "coder"]) as (entries & w' & Hrun & Hlen & _).
    + reflexivity.
    + exists entries, w'. split; [exact Hrun | exact Hlen].
  - apply (Hfailed (Error "no such directory: missing")). reflexivity.
Defined.

(** One configuration whose commit fails and one that goes through: two
    entries, the first failed, the second a success. *)
Example import_directory_one_bad_one_good :
  let w := with_faults (fault_at CCommit (Error "database is locked")) sample_world in
  ∃ r, (run (import_teams_from_directory "teams" "alice" false) w).1 = inr r
       ∧ status r = true
       ∧ ∃ bad good, data r = DList [IDict bad; IDict good]
           ∧ bad !! "status" = Some (VBool false)
           ∧ bad !! "id" = Some VNone
           ∧ good !! "status" = Some (VBool true)
           ∧ good !! "id" = Some (VInt 1).
Proof.
  eexists. split; [vm_compute; reflexivity|]. split; [reflexivity|].
  eexists _, _. split; [reflexivity|]. repeat split; vm_compute; reflexivity.
Qed.



(** C4 (what the code does). Two callers, [reset_db] and
    [initialize_database]: the second takes the gate between the release
    that ends the drop block of the first and the clean-up of the first.  The
    clean-up sees a held gate and releases it, although the other caller
    holds it; that caller then fails to release its own gate. *)
Theorem reset_db_releases_gate_of_concurrent_initialize :
  let '(reset, initialize, w, trace) :=
    interleave racing_schedule (reset_db true) (initialize_database false true)
      sample_world [] in
  reset = Ret {| message := "Database reset successfully";
                 status := true; data := DNone |}
  ∧ initialize = Throw (RuntimeError "release unlocked lock")
  ∧ trace = [ (ThreadA, Acquired); (ThreadA, Released);
              (ThreadB, Acquired); (ThreadA, Contended);
              (ThreadA, SawLocked true); (ThreadA, Released);
              (ThreadB, ReleaseRefused) ]
  ∧ foreign_releases [] trace = [(ThreadA, ThreadB)].
Proof. vm_compute. repeat split; reflexivity. Qed.

(** ** Sample runs of the further properties *)

(** X1 (witness). *)
Lemma reset_db_contention_witness :
  run (reset_db true) (set_init_lock true sample_world) =
  (inr {| message := "Database reset already in progress";
          status := false; data := DNone |},
   add_log "WARNING" "Database reset already in progress"
     (set_init_lock true sample_world)).
Proof. apply reset_db_contention. reflexivity. Defined.

(** X2 (witness). *)
Lemma reset_db_single_caller_witness :
  ∃ r w', run (reset_db true) sample_world = (inr r, w') ∧ init_lock w' = false.
Proof. apply reset_db_single_caller. reflexivity. Defined.

(** X3 (witness). *)
Lemma reset_db_drop_failure_witness :
  ∃ w',
    run (reset_db true)
      (with_faults (fault_at CDropAll (Error "disk I/O error")) sample_world) =
      (inr {| message := "Error while resetting database: disk I/O error";
              status := false; data := DNone |}, w')
    ∧ tables w' = tables sample_world
    ∧ executed w' = ["PRAGMA foreign_keys=OFF"].
Proof.
  destruct (reset_db_drop_failure true
              (with_faults (fault_at CDropAll (Error "disk I/O error")) sample_world)
              (Error "disk I/O error"))
    as (w' & Hrun & Htables & _ & Hexecuted & _); try reflexivity.
  exists w'. split; [exact Hrun|]. split; [exact Htables | exact Hexecuted].
Defined.

(** X4 (witness). *)
Lemma reset_db_drop_only_witness :
  ∃ w',
    run (reset_db false) world_with_team =
      (inr {| message := "Database tables dropped successfully";
              status := true; data := DNone |}, w')
    ∧ tables w' !! "Team" = None.
Proof.
  destruct (reset_db_drop_only world_with_team)
    as (w' & Hrun & _ & Htables); try reflexivity.
  exists w'. split; [exact Hrun|]. by rewrite Htables.
Defined.

(** X5 (witness). *)
Lemma initialize_database_creates_schema_witness :
  ∃ w',
    run (initialize_database false false) (set_store ∅ [] sample_world) =
      (inr {| message := "Database initialized successfully";
              status := true; data := DNone |}, w')
    ∧ tables w' !! "Team" = Some [].
Proof.
  destruct (initialize_database_creates_schema false false
              (set_store ∅ [] sample_world))
    as (w' & Hrun & _ & Htables); try reflexivity.
  exists w'. split; [exact Hrun|]. by rewrite Htables.
Defined.

(** X6 (witness). *)
Lemma initialize_database_ready_witness :
  ∃ w',
    run (initialize_database false false) world_with_team =
      (inr {| message := "Database is ready"; status := true; data := DNone |}, w')
    ∧ tables w' = tables world_with_team.
Proof.
  destruct (initialize_database_ready false world_with_team)
    as (w' & Hrun & _ & Htables); try reflexivity.
  - apply insert_non_empty.
  - exists w'. split; [exact Hrun | exact Htables].
Defined.

(** X7 (witness). *)
Lemma initialize_database_auto_upgrade_witness :
  ∃ w',
    run (initialize_database true false)
      (with_faults (fault_at CCheckSchemaStatus (Error "no alembic.ini"))
         world_with_team) =
      (inr {| message := "Database schema is up to date";
              status := true; data := DNone |}, w')
    ∧ faults w' CCheckSchemaStatus = [Some (Error "no alembic.ini")].
Proof.
  destruct (initialize_database_auto_upgrade false
              (with_faults (fault_at CCheckSchemaStatus (Error "no alembic.ini"))
                 world_with_team))
    as (w' & Hrun & _ & _ & Hfaults); try reflexivity.
  - apply insert_non_empty.
  - exists w'. split; [exact Hrun | exact Hfaults].
Defined.

(** X8 (witness). *)
Lemma initialize_database_inspection_failure_witness :
  ∃ w',
    run (initialize_database false false)
      (with_faults (fault_at CInspect (Error "unable to open database file"))
         sample_world) =
      (inr {| message :=
                "Database initialization failed: unable to open database file";
              status := false; data := DNone |}, w')
    ∧ init_lock w' = false.
Proof.
  destruct (initialize_database_inspection_failure false false
              (with_faults (fault_at CInspect (Error "unable to open database file"))
                 sample_world)
              (Error "unable to open database file"))
    as (w' & Hrun & Hgate & _); try reflexivity.
  exists w'. split; [exact Hrun | exact Hgate].
Defined.

(** X9 (witness). *)
Lemma get_returns_matching_rows_in_order_witness :
  ∃ found w',
    run (get Team_class [("user_id", VStr "alice")] false "desc") world_with_team =
      (inr {| message := "Team Retrieved Successfully";
              status := true;
              data := DList (rendered Team_class false <$> found) |}, w')
    ∧ found ≡ₚ [alice_team].
Proof.
  destruct (get_returns_matching_rows_in_order world_with_team Team_class
              [("user_id", VStr "alice")] false true [alice_team])
    as (found & w' & Hrun & Hfound & _); try reflexivity.
  - repeat constructor.
  - repeat constructor.
  - exists found, w'. split; [exact Hrun|].
    rewrite Hfound. rewrite filter_cons_True; [done|]. by repeat constructor.
Defined.

(** X10 (witness). *)
Lemma get_rejects_undeclared_column_witness :
  ∃ w',
    run (get Team_class [("owner", VStr "alice")] false "desc") world_with_team =
      (inr {| message := "Error while fetching Team";
              status := false; data := DList [] |}, w')
    ∧ tables w' = tables world_with_team.
Proof.
  destruct (get_rejects_undeclared_column world_with_team Team_class
              [("owner", VStr "alice")] false "desc")
    as (w' & Hrun & Htables & _).
  - intros [Hin _]%Forall_cons. cbn in Hin.
    repeat (apply elem_of_cons in Hin as [Hin|Hin]; [discriminate|]).
    by apply elem_of_nil in Hin.
  - exists w'. split; [exact Hrun | exact Htables].
Defined.

(** X11 (witness). *)
Lemma get_missing_table_witness :
  ∃ w',
    run (get Team_class [] false "desc") (set_store ∅ [] sample_world) =
      (inr {| message := "Error while fetching Team";
              status := false; data := DList [] |}, w').
Proof.
  destruct (get_missing_table (set_store ∅ [] sample_world) Team_class [] false)
    as (w' & Hrun & _); try reflexivity.
  - constructor.
  - exists w'. exact Hrun.
Defined.

(** X12 (witness). *)
Lemma delete_without_match_witness :
  ∃ w',
    run (delete Team_class [("user_id", VStr "bob")]) world_with_team =
      (inr {| message := "Row not found"; status := true; data := DNone |}, w')
    ∧ tables w' = tables world_with_team.
Proof.
  destruct (delete_without_match world_with_team Team_class
              [("user_id", VStr "bob")] [alice_team])
    as (w' & Hrun & Htables); try reflexivity.
  - repeat constructor.
  - constructor; [|constructor]. intros [Hbob _]%Forall_cons.
    vm_compute in Hbob. discriminate.
  - exists w'. split; [exact Hrun | exact Htables].
Defined.

(** X13 (witness). *)
Lemma delete_removes_matching_rows_witness :
  ∃ w',
    run (delete Team_class [("user_id", VStr "alice")])
      (set_store {["Team" := [alice_team]]} [] sample_world) =
      (inr {| message := "Team Deleted Successfully";
              status := true; data := DNone |}, w')
    ∧ tables w' !! "Team" = Some [].
Proof.
  destruct (delete_removes_matching_rows
              (set_store {["Team" := [alice_team]]} [] sample_world) Team_class
              [("user_id", VStr "alice")] [alice_team])
    as (w' & Hrun & Htables); try reflexivity.
  - repeat constructor.
  - repeat constructor. intros Hin. by apply elem_of_nil in Hin.
  - left. by repeat constructor.
  - intros row _ _ Hin. by apply elem_of_nil in Hin.
  - exists w'. split; [exact Hrun|]. rewrite Htables, lookup_insert_eq.
    rewrite filter_cons_False; [done|]. intros Hno. apply Hno.
    by repeat constructor.
Defined.

(** X14 (witness). *)
Lemma delete_rejects_undeclared_column_witness :
  ∃ w',
    run (delete Team_class [("owner", VStr "alice")]) world_with_team =
      (inr {| message := "Error while deleting: owner";
              status := false; data := DNone |}, w')
    ∧ tables w' = tables world_with_team.
Proof.
  destruct (delete_rejects_undeclared_column world_with_team Team_class
              [("owner", VStr "alice")])
    as (col & w' & Hcol & _ & Hrun & Htables & _).
  - intros [Hin _]%Forall_cons. cbn in Hin.
    repeat (apply elem_of_cons in Hin as [Hin|Hin]; [discriminate|]).
    by apply elem_of_nil in Hin.
  - cbn in Hcol. apply list_elem_of_singleton in Hcol as ->.
    exists w'. split; [exact Hrun | exact Htables].
Defined.
